(** * ConcurrentHashMap: a striped hash map with separate chaining

    A shallow embedding of [src/concurrent_hash_map.h] and the properties of
    its sequential behaviour.

    The class keeps a vector of buckets ([table_], each bucket a vector of
    key/value pairs), a vector of mutexes ([mutex_]), an atomic entry counter
    ([size_]), an atomic bucket counter ([buckets_]) and the hash functor
    ([hasher_]).  Every method is embedded as a computation in a state and
    error monad over a record with these members.  A call either returns
    ([Done], with the result and the state it leaves), throws ([Throw], with
    the state it leaves; only [At] does), or has no defined behaviour
    ([Undefined]: a division by zero, an index outside a vector).  A
    constructor yields an object, or nothing where it has no defined
    behaviour (a signed overflow).

    [size_t] is taken to be 64 bits wide and [int] 32 bits.  [size_t] and
    [uint64_t] values are integers reduced modulo [2 ^ 64]; the wrap-around of every arithmetic operation of the source is written out.
    Vectors are lists; that a vector cannot outgrow the address space is the
    predicate [fits], a hypothesis of the theorems that need it.

    The embedding follows one thread.  Every method releases the mutexes it
    takes before it returns, so a mutex carries no information between two
    calls and the vector [mutex_] is represented by its length.  The module
    [Locking] further down adds the vector and the lock operations, and the
    theorems on it show that this loses nothing. *)

From Stdlib Require Import ZArith Lia.
From stdpp Require Import base tactics option list numbers.

Local Open Scope Z_scope.

(** ** Machine integers *)

Definition to_size_t (z : Z) : Z := z mod 2 ^ 64.
Definition to_uint64 (z : Z) : Z := z mod 2 ^ 64.

Definition INT_MAX : Z := 2 ^ 31 - 1.
Definition INT_MIN : Z := - 2 ^ 31.
Definition is_int (z : Z) : Prop := INT_MIN <= z <= INT_MAX.

(** ** Class constants *)

Definition kUndefinedSize : Z := -1.
Definition kDefaultConcurrencyLevel : Z := 8.
Definition kLoadFactor : Z := 3.

(** ** Outcomes of a call *)

Inductive exception : Type :=
| out_of_range.

Inductive outcome (A S : Type) : Type :=
| Done (a : A) (s : S)
| Throw (e : exception) (s : S)
| Undefined.

Arguments Done {A S} a s.
Arguments Throw {A S} e s.
Arguments Undefined {A S}.

Section Map.

Context {K V : Type} `{EqDecision K}.

(** [V{}], the value-initialised [V] that [Find] returns with [false]. *)
Variable V_default : V.

Abbreviation bucket := (list (K * V)).

(** ** The object *)

Record ConcurrentHashMap : Type := {
  table_ : list bucket;
  mutex_size : Z;          (* mutex_.size() *)
  size_ : Z;
  buckets_ : Z;
  hasher_ : K -> Z
}.

Definition with_table (t : list bucket) (s : ConcurrentHashMap) :=
  {| table_ := t; mutex_size := mutex_size s; size_ := size_ s;
     buckets_ := buckets_ s; hasher_ := hasher_ s |}.

Definition with_size (n : Z) (s : ConcurrentHashMap) :=
  {| table_ := table_ s; mutex_size := mutex_size s; size_ := n;
     buckets_ := buckets_ s; hasher_ := hasher_ s |}.

Definition with_buckets (n : Z) (s : ConcurrentHashMap) :=
  {| table_ := table_ s; mutex_size := mutex_size s; size_ := size_ s;
     buckets_ := n; hasher_ := hasher_ s |}.

(** ** The monad of method bodies *)

Definition M (A : Type) : Type :=
  ConcurrentHashMap -> outcome A ConcurrentHashMap.

Definition ret {A} (a : A) : M A := fun s => Done a s.

Definition bind {A B} (m : M A) (f : A -> M B) : M B :=
  fun s =>
    match m s with
    | Done a s' => f a s'
    | Throw e s' => Throw e s'
    | Undefined => Undefined
    end.

Definition get {A} (field : ConcurrentHashMap -> A) : M A :=
  fun s => Done (field s) s.

Definition modify (f : ConcurrentHashMap -> ConcurrentHashMap) : M unit :=
  fun s => Done tt (f s).

Definition throw {A} (e : exception) : M A := fun s => Throw e s.
Definition undefined {A} : M A := fun _ => Undefined.

Notation "x <- m ;; k" := (bind m (fun x => k))
  (at level 100, m at next level, right associativity).
Notation "m ;;; k" := (bind m (fun _ => k))
  (at level 100, right associativity).

(** Unsigned [a % b] and [a / b]: no defined behaviour when [b] is zero. *)
Definition umod (a b : Z) : M Z :=
  if b =? 0 then undefined else ret (a mod b).

Definition udiv (a b : Z) : M Z :=
  if b =? 0 then undefined else ret (a / b).

(** [hasher_(key)] stored in a [uint64_t]. *)
Definition hash_of (key : K) : M Z :=
  h <- get hasher_ ;; ret (to_uint64 (h key)).

(** [hash % mutex_.size()], the index of the mutex a single-key method locks. *)
Definition lock_index (hash : Z) : M Z :=
  nm <- get mutex_size ;; umod hash nm.

(** [hash % buckets_], the index of the bucket a single-key method works on. *)
Definition bucket_index (hash : Z) : M Z :=
  b <- get buckets_ ;; umod hash b.

(** [table_[idx]]: [operator[]] outside the vector has no defined behaviour. *)
Definition bucket_at (idx : Z) : M bucket :=
  fun s =>
    match table_ s !! Z.to_nat idx with
    | Some chain => Done chain s
    | None => Undefined
    end.

Definition set_bucket (idx : Z) (chain : bucket) : M unit :=
  modify (fun s => with_table (<[Z.to_nat idx := chain]> (table_ s)) s).

(** ** Scans of one chain *)

(** The loop of [Insert]: is there an element whose key equals [key]? *)
Fixpoint has_key (key : K) (chain : bucket) : bool :=
  match chain with
  | [] => false
  | el :: rest => if decide (el.1 = key) then true else has_key key rest
  end.

(** The loop of [Find] and [At]: the value of the first element whose key
    equals [key]. *)
Fixpoint first_value (key : K) (chain : bucket) : option V :=
  match chain with
  | [] => None
  | el :: rest => if decide (el.1 = key) then Some el.2 else first_value key rest
  end.

(** The loop of [Erase]: [el_idx], the number of elements before the first
    one whose key equals [key]; the chain's length when there is none. *)
Fixpoint first_index (key : K) (chain : bucket) : nat :=
  match chain with
  | [] => 0%nat
  | el :: rest => if decide (el.1 = key) then 0%nat else S (first_index key rest)
  end.

(** ** Rehash *)

(** The inner loop of [Rehash]: every element of [vec] is pushed to the back
    of [temp[hash % new_bucket_cnt]]. *)
Fixpoint move_chain (new_bucket_cnt : Z) (vec : bucket) (temp : list bucket)
  : M (list bucket) :=
  match vec with
  | [] => ret temp
  | el :: rest =>
      hash <- hash_of el.1 ;;
      idx <- umod hash new_bucket_cnt ;;
      match temp !! Z.to_nat idx with
      | Some chain =>
          move_chain new_bucket_cnt rest (<[Z.to_nat idx := chain ++ [el]]> temp)
      | None => undefined
      end
  end.

(** The outer loop of [Rehash], over the buckets of [table_]. *)
Fixpoint move_table (new_bucket_cnt : Z) (tbl : list bucket) (temp : list bucket)
  : M (list bucket) :=
  match tbl with
  | [] => ret temp
  | vec :: rest =>
      temp' <- move_chain new_bucket_cnt vec temp ;;
      move_table new_bucket_cnt rest temp'
  end.

(** The test [(size_ + buckets_ - 1) / buckets_ > kLoadFactor]. *)
Definition load_factor_exceeded (size buckets : Z) : M bool :=
  q <- udiv (to_size_t (size + buckets - 1)) buckets ;;
  ret (kLoadFactor <? q).

Definition Rehash : M unit :=
  (* every mutex is locked, in ascending order *)
  sz <- get size_ ;;
  b <- get buckets_ ;;
  breach <- load_factor_exceeded sz b ;;
  if (breach : bool) then
    nm <- get mutex_size ;;
    r <- umod sz nm ;;
    let new_bucket_cnt := if r =? 0 then sz else to_size_t (sz + nm - r) in
    tbl <- get table_ ;;
    temp <- move_table new_bucket_cnt tbl (replicate (Z.to_nat new_bucket_cnt) []) ;;
    modify (with_table temp) ;;;
    modify (with_buckets new_bucket_cnt)
  else
    ret tt
  (* every mutex is unlocked, in ascending order *).

(** ** Constructors *)

Definition ConcurrentHashMap_new
    (expected_size expected_threads_count : Z) (hasher : K -> Z)
  : option ConcurrentHashMap :=
  let threads_cnt := Z.max 8 expected_threads_count in
  if expected_size =? kUndefinedSize then
    let table := replicate (Z.to_nat threads_cnt) [] in
    Some {| table_ := table; mutex_size := threads_cnt; size_ := 0;
            buckets_ := Z.of_nat (length table); hasher_ := hasher |}
  else if INT_MAX <? expected_size + kLoadFactor then
    None                            (* signed overflow of [int] *)
  else
    let expected_size := (expected_size + kLoadFactor - 1) ÷ kLoadFactor in
    let e := to_size_t expected_size in (* [int] converted for [% threads_cnt] *)
    let size :=
      if e mod threads_cnt =? 0 then e
      else to_size_t (e + threads_cnt - e mod threads_cnt) in
    let table := replicate (Z.to_nat size) [] in
    Some {| table_ := table; mutex_size := threads_cnt; size_ := 0;
            buckets_ := Z.of_nat (length table); hasher_ := hasher |}.

(** [ConcurrentHashMap(hasher)] *)
Definition ConcurrentHashMap_default (hasher : K -> Z) :=
  ConcurrentHashMap_new kUndefinedSize kDefaultConcurrencyLevel hasher.

(** [ConcurrentHashMap(expected_size, hasher)] *)
Definition ConcurrentHashMap_sized (expected_size : Z) (hasher : K -> Z) :=
  ConcurrentHashMap_new expected_size kDefaultConcurrencyLevel hasher.

(** ** Public methods *)

Definition Insert (key : K) (value : V) : M bool :=
  hash <- hash_of key ;;
  m_idx <- lock_index hash ;;
  (* lock_guard on mutex_[m_idx] *)
  idx <- bucket_index hash ;;
  chain <- bucket_at idx ;;
  if has_key key chain then
    ret false
  else
    set_bucket idx (chain ++ [(key, value)]) ;;;
    sz <- get size_ ;;
    modify (with_size (to_size_t (sz + 1))) ;;;
    (* mutex_[m_idx] is released *)
    size_copy <- get size_ ;;
    buckets_copy <- get buckets_ ;;
    breach <- load_factor_exceeded size_copy buckets_copy ;;
    (if (breach : bool) then Rehash else ret tt) ;;;
    ret true.

Definition Erase (key : K) : M bool :=
  hash <- hash_of key ;;
  m_idx <- lock_index hash ;;
  (* lock_guard on mutex_[m_idx] *)
  idx <- bucket_index hash ;;
  chain <- bucket_at idx ;;
  let el_idx := first_index key chain in
  if (el_idx =? length chain)%nat then
    ret false
  else
    set_bucket idx (delete el_idx chain) ;;;
    sz <- get size_ ;;
    modify (with_size (to_size_t (sz - 1))) ;;;
    ret true.

Definition Clear : M unit :=
  (* every mutex is locked, in ascending order *)
  tbl <- get table_ ;;
  modify (with_table (map (fun _ => []) tbl)) ;;;
  modify (with_size 0)
  (* every mutex is unlocked, in ascending order *).

Definition Find (key : K) : M (bool * V) :=
  hash <- hash_of key ;;
  m_idx <- lock_index hash ;;
  (* lock_guard on mutex_[m_idx] *)
  idx <- bucket_index hash ;;
  chain <- bucket_at idx ;;
  match first_value key chain with
  | Some v => ret (true, v)
  | None => ret (false, V_default)
  end.

Definition At (key : K) : M V :=
  hash <- hash_of key ;;
  m_idx <- lock_index hash ;;
  (* lock_guard on mutex_[m_idx] *)
  idx <- bucket_index hash ;;
  chain <- bucket_at idx ;;
  match first_value key chain with
  | Some v => ret v
  | None => throw out_of_range
  end.

Definition Size : M Z := get size_.

(** ** Observations and invariants *)

(** All the entries of the table, bucket after bucket. *)
Definition entries (s : ConcurrentHashMap) : bucket := concat (table_ s).

(** [key] is stored with value [v]. *)
Definition stored (s : ConcurrentHashMap) (key : K) (v : V) : Prop :=
  (key, v) ∈ entries s.

(** [key] is present. *)
Definition present (s : ConcurrentHashMap) (key : K) : Prop :=
  key ∈ (entries s).*1.

(** The bucket index of [key] in a table of [n] buckets. *)
Definition bucket_for (hasher : K -> Z) (n : Z) (key : K) : Z :=
  to_uint64 (hasher key) mod n.

(** The bucket index of [key] for the current bucket count. *)
Definition home (s : ConcurrentHashMap) (key : K) : Z :=
  bucket_for (hasher_ s) (buckets_ s) key.

(** The partition that owns bucket [idx]: the mutex index
    [idx % partition_count]. *)
Definition owner (s : ConcurrentHashMap) (idx : Z) : Z :=
  idx mod mutex_size s.

(** The sum of the chain lengths of all buckets. *)
Definition chain_length_sum (s : ConcurrentHashMap) : Z :=
  Z.of_nat (sum_list (length <$> table_ s)).

(** The state after [push_back] and [size_++] in [Insert], before the
    load-factor test. *)
Definition pushed (key : K) (value : V) (s : ConcurrentHashMap) : ConcurrentHashMap :=
  let idx := Z.to_nat (home s key) in
  with_size (size_ s + 1)
    (with_table (<[idx := default [] (table_ s !! idx) ++ [(key, value)]]> (table_ s)) s).

(** The state after [erase] and [size_--] in [Erase]. *)
Definition erased (key : K) (s : ConcurrentHashMap) : ConcurrentHashMap :=
  let idx := Z.to_nat (home s key) in
  let chain := default [] (table_ s !! idx) in
  with_size (size_ s - 1)
    (with_table (<[idx := delete (first_index key chain) chain]> (table_ s)) s).

(** The state after the two loops of [Clear]. *)
Definition cleared (s : ConcurrentHashMap) : ConcurrentHashMap :=
  with_size 0 (with_table (map (fun _ => []) (table_ s)) s).

(** The load-factor test of [Rehash] and [Insert] on the counters of [s]. *)
Definition exceeded (s : ConcurrentHashMap) : bool :=
  kLoadFactor <? to_size_t (size_ s + buckets_ s - 1) / buckets_ s.

Definition breach (s : ConcurrentHashMap) : Prop := exceeded s = true.

(** The counters are in the range in which the arithmetic of [Rehash] does
    not wrap around and divides by no zero. *)
Record room (s : ConcurrentHashMap) : Prop := {
  room_mutex : 0 < mutex_size s;
  room_buckets : 0 < buckets_ s;
  room_size : 0 <= size_ s;
  room_sum : size_ s + buckets_ s + mutex_size s <= 2 ^ 64
}.

(** [a / b] rounded up, for a positive [b]. *)
Definition ceil_div (a b : Z) : Z := (a + b - 1) / b.

(** [n] is the smallest multiple of [m] that is at least [lo]. *)
Definition smallest_multiple_geq (m lo n : Z) : Prop :=
  (m | n) ∧ lo <= n ∧ ∀ n', (m | n') → lo <= n' → n <= n'.

(** The entries, the buckets and the mutexes live in one 64-bit address
    space and each of them takes at least one byte. *)
Definition fits (s : ConcurrentHashMap) : Prop :=
  Z.of_nat (length (entries s)) + Z.of_nat (length (table_ s)) + mutex_size s
  < 2 ^ 64.

(** There is a mutex and a bucket, and the bucket count is the table's
    length. *)
Record shape (s : ConcurrentHashMap) : Prop := {
  shape_mutex : 0 < mutex_size s;
  shape_buckets : buckets_ s = Z.of_nat (length (table_ s));
  shape_positive : 0 < buckets_ s
}.

(** The bucket count is a multiple of the partition count, so that bucket
    [idx] belongs to partition [idx % partition_count] whatever the bucket
    count. *)
Definition striped (s : ConcurrentHashMap) : Prop :=
  (mutex_size s | buckets_ s).

(** The class invariant: shape, an exact counter, every entry in the bucket
    of its key, no key twice. *)
Record wf (s : ConcurrentHashMap) : Prop := {
  wf_shape : shape s;
  wf_size : size_ s = Z.of_nat (length (entries s));
  wf_home : ∀ (i : nat) chain el,
      table_ s !! i = Some chain → el ∈ chain → home s el.1 = Z.of_nat i;
  wf_nodup : NoDup (entries s).*1
}.

(** A check of the class invariant that computes. *)
Fixpoint placed_from (s : ConcurrentHashMap) (i : nat) (t : list bucket) : bool :=
  match t with
  | [] => true
  | chain :: rest =>
      forallb (fun el => home s el.1 =? Z.of_nat i) chain
      && placed_from s (S i) rest
  end.

Definition wf_check (s : ConcurrentHashMap) : bool :=
  (0 <? mutex_size s)
  && (buckets_ s =? Z.of_nat (length (table_ s)))
  && (0 <? buckets_ s)
  && (size_ s =? Z.of_nat (length (entries s)))
  && placed_from s 0 (table_ s)
  && bool_decide (NoDup (entries s).*1).

(** What holds of the counters whatever the constructor was given. *)
Record counted (s : ConcurrentHashMap) : Prop := {
  counted_mutex : 0 < mutex_size s;
  counted_buckets : buckets_ s = Z.of_nat (length (table_ s));
  counted_size : size_ s = Z.of_nat (length (entries s))
}.

(** ** Sequences of calls *)

Inductive call : Type :=
| CallInsert (key : K) (value : V)
| CallErase (key : K)
| CallClear
| CallFind (key : K)
| CallAt (key : K)
| CallSize
| CallRehash.

Definition run (c : call) : M unit :=
  match c with
  | CallInsert key value => Insert key value ;;; ret tt
  | CallErase key => Erase key ;;; ret tt
  | CallClear => Clear
  | CallFind key => Find key ;;; ret tt
  | CallAt key => At key ;;; ret tt
  | CallSize => Size ;;; ret tt
  | CallRehash => Rehash
  end.

(** [s] is the state after a sequence of completed calls on [s0].  A call
    completes only when the object it leaves fits the address space: an
    allocation beyond it fails.  A call of [At] that throws leaves the object
    as it was and so adds no state. *)
Inductive reachable_from (s0 : ConcurrentHashMap) : ConcurrentHashMap -> Prop :=
| reachable_here : reachable_from s0 s0
| reachable_call s c s' :
    reachable_from s0 s -> run c s = Done tt s' -> fits s' ->
    reachable_from s0 s'.

(** [s] is the state of an object after its construction and a sequence of
    completed calls. *)
Definition reachable (s : ConcurrentHashMap) : Prop :=
  ∃ expected_size expected_threads_count hasher s0,
    is_int expected_size ∧ is_int expected_threads_count ∧
    ConcurrentHashMap_new expected_size expected_threads_count hasher = Some s0 ∧
    fits s0 ∧ reachable_from s0 s.

(** Constructor arguments that name a size: the sentinel or a positive
    count whose rounding does not overflow [int]. *)
Definition sized_input (expected_size : Z) : Prop :=
  expected_size = kUndefinedSize ∨ 0 < expected_size <= INT_MAX - kLoadFactor.

End Map.

Arguments ConcurrentHashMap : clear implicits.

(** ** Concrete maps over integer keys and values *)

Module Sample.

Definition identity_hash (k : Z) : Z := k.

(** Eight buckets, eight mutexes, empty. *)
Definition fresh : ConcurrentHashMap Z Z :=
  {| table_ := replicate 8 []; mutex_size := 8; size_ := 0; buckets_ := 8;
     hasher_ := identity_hash |}.

(** [fresh] after [Insert(3, 30)]. *)
Definition one : ConcurrentHashMap Z Z :=
  {| table_ := [[]; []; []; [(3, 30)]; []; []; []; []];
     mutex_size := 8; size_ := 1; buckets_ := 8; hasher_ := identity_hash |}.

(** Keys 3, 11 and 5 with values 30, 110 and 50. *)
Definition three : ConcurrentHashMap Z Z :=
  {| table_ := [[]; []; []; [(3, 30); (11, 110)]; []; [(5, 50)]; []; []];
     mutex_size := 8; size_ := 3; buckets_ := 8; hasher_ := identity_hash |}.

(** One bucket and one mutex holding four entries: the load factor is
    exceeded. *)
Definition crowded : ConcurrentHashMap Z Z :=
  {| table_ := [[(0, 0); (1, 10); (2, 20); (3, 30)]];
     mutex_size := 1; size_ := 4; buckets_ := 1; hasher_ := identity_hash |}.

(** Twenty-five entries in eight buckets with eight mutexes: the load
    factor is exceeded. *)
Definition loaded : ConcurrentHashMap Z Z :=
  {| table_ := (λ i : Z, [(i, 10 * i); (i + 8, 10 * (i + 8)); (i + 16, 10 * (i + 16))]
                         ++ (if i =? 0 then [(24, 240)] else []))
               <$> [0; 1; 2; 3; 4; 5; 6; 7];
     mutex_size := 8; size_ := 25; buckets_ := 8; hasher_ := identity_hash |}.

End Sample.

(** * Calls in sequence *)

Section Sequences.

Context {K V : Type} `{EqDecision K}.

(** The chain a single-key method scans: [table_[hash % buckets_]], when
    there is a mutex to lock, a bucket count to divide by and a bucket at
    that index. *)
Definition located (s : ConcurrentHashMap K V) (key : K) : option (list (K * V)) :=
  if mutex_size s =? 0 then None
  else if buckets_ s =? 0 then None
  else table_ s !! Z.to_nat (home s key).

(** [Insert] of every pair of a list, in order; the results of the calls. *)
Fixpoint insert_all (kvs : list (K * V)) : @M K V (list bool) :=
  match kvs with
  | [] => ret []
  | kv :: rest =>
      bind (Insert kv.1 kv.2) (fun r =>
      bind (insert_all rest) (fun rs => ret (r :: rs)))
  end.

(** The most buckets a table can have after [size_] has reached [n]: the
    larger of the present count and the round-up of [n]. *)
Definition bucket_bound (s : ConcurrentHashMap K V) (n : Z) : Z :=
  Z.max (buckets_ s) (n + mutex_size s).

End Sequences.

(** * The mutexes

    The methods once more, now with the vector [mutex_] and the calls of
    [lock] and [unlock] that the source makes, for one calling thread.  A
    mutex is [true] while the thread holds it.  [lock] on a mutex the thread
    holds and [unlock] on one it does not hold have no defined behaviour
    (the first can block for ever).  Every [lock] and [unlock] is recorded
    in a trace.  What a method does to the table and the counters between
    its lock operations is the body modelled above, lifted. *)

Module Locking.

Section Defs.

Context {K V : Type} `{EqDecision K}.
Variable V_default : V.

Inductive event : Type :=
| Lock (i : Z)
| Unlock (i : Z).

Record Threaded : Type := {
  object : ConcurrentHashMap K V;
  mutex_ : list bool;
  trace : list event
}.

Definition ML (A : Type) : Type := Threaded -> outcome A Threaded.

Definition ret_l {A} (a : A) : ML A := fun t => Done a t.

Definition bind_l {A B} (m : ML A) (f : A -> ML B) : ML B :=
  fun t =>
    match m t with
    | Done a t' => f a t'
    | Throw e t' => Throw e t'
    | Undefined => Undefined
    end.

Notation "x <- m ;; k" := (bind m (fun x => k))
  (at level 100, m at next level, right associativity).
Notation "m ;;; k" := (bind m (fun _ => k))
  (at level 100, right associativity).
Notation "x <<- m ;; k" := (bind_l m (fun x => k))
  (at level 100, m at next level, right associativity).
Notation "m ;;;; k" := (bind_l m (fun _ => k))
  (at level 100, right associativity).

(** A computation on the table and the counters, run on [object]. *)
Definition lift {A} (m : @M K V A) : ML A :=
  fun t =>
    let put s := {| object := s; mutex_ := mutex_ t; trace := trace t |} in
    match m (object t) with
    | Done a s => Done a (put s)
    | Throw e s => Throw e (put s)
    | Undefined => Undefined
    end.

(** [mutex_[i].lock()] *)
Definition lock (i : Z) : ML unit :=
  fun t =>
    match mutex_ t !! Z.to_nat i with
    | Some false =>
        Done tt {| object := object t;
                   mutex_ := <[Z.to_nat i := true]> (mutex_ t);
                   trace := trace t ++ [Lock i] |}
    | Some true => Undefined
    | None => Undefined
    end.

(** [mutex_[i].unlock()] *)
Definition unlock (i : Z) : ML unit :=
  fun t =>
    match mutex_ t !! Z.to_nat i with
    | Some true =>
        Done tt {| object := object t;
                   mutex_ := <[Z.to_nat i := false]> (mutex_ t);
                   trace := trace t ++ [Unlock i] |}
    | Some false => Undefined
    | None => Undefined
    end.

(** [std::lock_guard lg(mutex_[i])] around [body]: the mutex is locked on
    entry and unlocked when the scope is left, by a return or by a throw. *)
Definition lock_guard {A} (i : Z) (body : ML A) : ML A :=
  fun t =>
    match lock i t with
    | Done _ t1 =>
        match body t1 with
        | Done a t2 =>
            match unlock i t2 with
            | Done _ t3 => Done a t3
            | Throw e t3 => Throw e t3
            | Undefined => Undefined
            end
        | Throw e t2 =>
            match unlock i t2 with
            | Done _ t3 => Throw e t3
            | Throw e' t3 => Throw e' t3
            | Undefined => Undefined
            end
        | Undefined => Undefined
        end
    | Throw e t1 => Throw e t1
    | Undefined => Undefined
    end.

(** [for (auto& m : mutex_) f(m)], by ascending index. *)
Fixpoint for_each (f : Z -> ML unit) (indices : list nat) : ML unit :=
  match indices with
  | [] => ret_l tt
  | i :: rest => f (Z.of_nat i) ;;;; for_each f rest
  end.

Definition each_mutex (f : Z -> ML unit) : ML unit :=
  fun t => for_each f (seq 0 (length (mutex_ t))) t.

(** [Rehash]: every mutex locked, the test and the move, every mutex
    unlocked. *)
Definition Rehash : ML unit :=
  each_mutex lock ;;;;
  lift Rehash ;;;;
  each_mutex unlock.

(** [Clear]: every mutex locked, the chains emptied and [size_] reset, every
    mutex unlocked. *)
Definition Clear : ML unit :=
  each_mutex lock ;;;;
  lift Clear ;;;;
  each_mutex unlock.

(** What [Insert] does while it holds its mutex; [true] when the entry was
    pushed, [false] for the [return false] inside the block. *)
Definition Insert_guarded (key : K) (value : V) (hash : Z) : @M K V bool :=
  idx <- bucket_index hash ;;
  chain <- bucket_at idx ;;
  if has_key key chain then
    ret false
  else
    set_bucket idx (chain ++ [(key, value)]) ;;;
    sz <- get size_ ;;
    modify (with_size (to_size_t (sz + 1))) ;;;
    ret true.

Definition Insert (key : K) (value : V) : ML bool :=
  hash <<- lift (hash_of key) ;;
  m_idx <<- lift (lock_index hash) ;;
  inserted <<- lock_guard m_idx (lift (Insert_guarded key value hash)) ;;
  if (inserted : bool) then
    size_copy <<- lift (get size_) ;;
    buckets_copy <<- lift (get buckets_) ;;
    breach <<- lift (load_factor_exceeded size_copy buckets_copy) ;;
    (if (breach : bool) then Rehash else ret_l tt) ;;;;
    ret_l true
  else
    ret_l false.

Definition Erase_guarded (key : K) (hash : Z) : @M K V bool :=
  idx <- bucket_index hash ;;
  chain <- bucket_at idx ;;
  let el_idx := first_index key chain in
  if (el_idx =? length chain)%nat then
    ret false
  else
    set_bucket idx (delete el_idx chain) ;;;
    sz <- get size_ ;;
    modify (with_size (to_size_t (sz - 1))) ;;;
    ret true.

Definition Erase (key : K) : ML bool :=
  hash <<- lift (hash_of key) ;;
  m_idx <<- lift (lock_index hash) ;;
  lock_guard m_idx (lift (Erase_guarded key hash)).

Definition Find_guarded (key : K) (hash : Z) : @M K V (bool * V) :=
  idx <- bucket_index hash ;;
  chain <- bucket_at idx ;;
  match first_value key chain with
  | Some v => ret (true, v)
  | None => ret (false, V_default)
  end.

Definition Find (key : K) : ML (bool * V) :=
  hash <<- lift (hash_of key) ;;
  m_idx <<- lift (lock_index hash) ;;
  lock_guard m_idx (lift (Find_guarded key hash)).

Definition At_guarded (key : K) (hash : Z) : @M K V V :=
  idx <- bucket_index hash ;;
  chain <- bucket_at idx ;;
  match first_value key chain with
  | Some v => ret v
  | None => throw out_of_range
  end.

Definition At (key : K) : ML V :=
  hash <<- lift (hash_of key) ;;
  m_idx <<- lift (lock_index hash) ;;
  lock_guard m_idx (lift (At_guarded key hash)).

(** [Size] reads the atomic counter and takes no mutex. *)
Definition Size : ML Z := lift Size.

(** A call, as in [run] above. *)
Definition run (c : call) : ML unit :=
  match c with
  | CallInsert key value => Insert key value ;;;; ret_l tt
  | CallErase key => Erase key ;;;; ret_l tt
  | CallClear => Clear
  | CallFind key => Find key ;;;; ret_l tt
  | CallAt key => At key ;;;; ret_l tt
  | CallSize => Size ;;;; ret_l tt
  | CallRehash => Rehash
  end.

(** ** Observations *)

(** No mutex is held, and there are as many mutexes as the object says. *)
Definition idle (t : Threaded) : Prop :=
  Forall (fun b => b = false) (mutex_ t) ∧
  Z.of_nat (length (mutex_ t)) = mutex_size (object t).

(** The outcome of a body on [object t], with the mutexes of [t] and the
    trace of [t] extended by [tr]. *)
Definition settle {A} (t : Threaded) (tr : list event)
    (o : outcome A (ConcurrentHashMap K V)) : outcome A Threaded :=
  let put s := {| object := s; mutex_ := mutex_ t; trace := trace t ++ tr |} in
  match o with
  | Done a s => Done a (put s)
  | Throw e s => Throw e (put s)
  | Undefined => Undefined
  end.

(** The mutex index of [key]. *)
Definition stripe (s : ConcurrentHashMap K V) (key : K) : Z :=
  to_uint64 (hasher_ s key) mod mutex_size s.

(** The trace of a lock guard on mutex [i]. *)
Definition guard_trace (i : Z) : list event := [Lock i; Unlock i].

(** The trace of a method that takes all [n] mutexes: locked by ascending
    index, then unlocked by ascending index. *)
Definition barrier_trace (n : nat) : list event :=
  ((fun i => Lock (Z.of_nat i)) <$> seq 0 n) ++
  ((fun i => Unlock (Z.of_nat i)) <$> seq 0 n).

(** A computation that leaves the number of mutexes as it is. *)
Definition keeps_mutexes {A} (m : @M K V A) : Prop :=
  ∀ s,
    match m s with
    | Done _ s' => mutex_size s' = mutex_size s
    | Throw _ s' => mutex_size s' = mutex_size s
    | Undefined => True
    end.

(** A computation that throws nothing. *)
Definition never_throws {A} (m : @M K V A) : Prop :=
  ∀ s,
    match m s with
    | Throw _ _ => False
    | _ => True
    end.

(** Does [Insert(key, value)] on [s] push the entry and find the load
    factor exceeded? *)
Definition grows (s : ConcurrentHashMap K V) (key : K) (value : V) : bool :=
  match lock_index (to_uint64 (hasher_ s key)) s with
  | Done _ _ =>
      match Insert_guarded key value (to_uint64 (hasher_ s key)) s with
      | Done true s1 => exceeded s1
      | _ => false
      end
  | _ => false
  end.

End Defs.

End Locking.

(** An idle thread on the map of three entries. *)
Module SampleLocking.

Definition three : @Locking.Threaded Z Z :=
  {| Locking.object := Sample.three;
     Locking.mutex_ := replicate 8 false;
     Locking.trace := [] |}.

(** An idle thread on a map of eight buckets holding twenty-four entries. *)
Definition full : @Locking.Threaded Z Z :=
  {| Locking.object :=
       {| table_ := (λ i : Z, [(i, 10 * i); (i + 8, 10 * (i + 8));
                                (i + 16, 10 * (i + 16))])
                    <$> [0; 1; 2; 3; 4; 5; 6; 7];
          mutex_size := 8; size_ := 24; buckets_ := 8;
          hasher_ := Sample.identity_hash |};
     Locking.mutex_ := replicate 8 false;
     Locking.trace := [] |}.

(** What [ConcurrentHashMap(0)] returns: eight mutexes and no bucket. *)
Definition no_bucket : ConcurrentHashMap Z Z :=
  {| table_ := []; mutex_size := 8; size_ := 0; buckets_ := 0;
     hasher_ := Sample.identity_hash |}.

End SampleLocking.

(** * Properties *)

Section Facts.

Context {K V : Type} `{EqDecision K}.
Variable V_default : V.

Implicit Types (s : ConcurrentHashMap K V) (key : K) (chain : list (K * V)).

(** ** Machine integers *)

Lemma to_size_t_small z : 0 <= z < 2 ^ 64 → to_size_t z = z.
Proof. intros Hz. unfold to_size_t. by apply Z.mod_small. Qed.

Lemma to_size_t_range z : 0 <= to_size_t z < 2 ^ 64.
Proof. unfold to_size_t. apply Z.mod_pos_bound. lia. Qed.

Lemma to_uint64_range z : 0 <= to_uint64 z < 2 ^ 64.
Proof. unfold to_uint64. apply Z.mod_pos_bound. lia. Qed.

(** ** Evaluating the pieces of a method body *)

Lemma lock_index_Done s hash :
  0 < mutex_size s → lock_index hash s = Done (hash mod mutex_size s) s.
Proof.
  intros Hm. unfold lock_index, bind, get, umod.
  destruct (Z.eqb_spec (mutex_size s) 0); [lia | done].
Qed.

Lemma bucket_index_Done s hash :
  0 < buckets_ s → bucket_index hash s = Done (hash mod buckets_ s) s.
Proof.
  intros Hb. unfold bucket_index, bind, get, umod.
  destruct (Z.eqb_spec (buckets_ s) 0); [lia | done].
Qed.

Lemma home_range s key : 0 < buckets_ s → 0 <= home s key < buckets_ s.
Proof. intros Hb. unfold home, bucket_for. by apply Z.mod_pos_bound. Qed.

Lemma home_bucket s key :
  shape s → ∃ chain, table_ s !! Z.to_nat (home s key) = Some chain.
Proof.
  intros Hs. apply lookup_lt_is_Some_2.
  pose proof (home_range s key (shape_positive s Hs)) as Hr.
  rewrite (shape_buckets s Hs) in Hr. lia.
Qed.

Lemma Find_eval s key chain :
  shape s → table_ s !! Z.to_nat (home s key) = Some chain →
  Find V_default key s =
    match first_value key chain with
    | Some v => Done (true, v) s
    | None => Done (false, V_default) s
    end.
Proof.
  intros Hs Hc. unfold Find, bind at 1, hash_of, bind at 1, get, ret. simpl.
  unfold bind at 1. rewrite lock_index_Done by apply Hs.
  unfold bind at 1. rewrite bucket_index_Done by apply Hs.
  unfold bind, bucket_at. fold (bucket_for (hasher_ s) (buckets_ s) key).
  fold (home s key). rewrite Hc.
  by destruct (first_value key chain).
Qed.

Lemma At_eval s key chain :
  shape s → table_ s !! Z.to_nat (home s key) = Some chain →
  At key s =
    match first_value key chain with
    | Some v => Done v s
    | None => Throw out_of_range s
    end.
Proof.
  intros Hs Hc. unfold At, bind at 1, hash_of, bind at 1, get, ret. simpl.
  unfold bind at 1. rewrite lock_index_Done by apply Hs.
  unfold bind at 1. rewrite bucket_index_Done by apply Hs.
  unfold bind, bucket_at. fold (bucket_for (hasher_ s) (buckets_ s) key).
  fold (home s key). rewrite Hc.
  by destruct (first_value key chain).
Qed.

(** ** Scanning a chain *)

Lemma has_key_spec key chain : has_key key chain = true ↔ key ∈ chain.*1.
Proof.
  induction chain as [|el rest IH]; simpl.
  - split; [done | by intros ?%elem_of_nil].
  - rewrite elem_of_cons. destruct (decide (el.1 = key)) as [->|Hne].
    + split; auto.
    + rewrite IH. intuition congruence.
Qed.

Lemma first_value_None key chain :
  first_value key chain = None ↔ key ∉ chain.*1.
Proof.
  induction chain as [|el rest IH]; simpl.
  - split; [intros _; apply not_elem_of_nil | done].
  - rewrite not_elem_of_cons. destruct (decide (el.1 = key)) as [->|Hne].
    + split; [done | intros [? _]; done].
    + rewrite IH. intuition congruence.
Qed.

Lemma first_value_Some key chain v :
  first_value key chain = Some v → (key, v) ∈ chain.
Proof.
  induction chain as [|[k w] rest IH]; simpl; [done|].
  destruct (decide (k = key)) as [->|Hne].
  - intros [= ->]. apply elem_of_cons. by left.
  - intros Hv. apply elem_of_cons. right. by apply IH.
Qed.

Lemma first_value_stored key chain v :
  NoDup chain.*1 → (key, v) ∈ chain → first_value key chain = Some v.
Proof.
  induction chain as [|[k w] rest IH]; simpl.
  - by intros _ ?%elem_of_nil.
  - intros [Hk Hnd]%list.NoDup_cons [Heq|Hin]%elem_of_cons.
    + injection Heq as <- <-. by rewrite decide_True.
    + destruct (decide (k = key)) as [->|Hne]; [|by apply IH].
      exfalso. apply Hk. apply list_elem_of_fmap. by exists (key, v).
Qed.

Lemma first_index_le key chain : (first_index key chain ≤ length chain)%nat.
Proof.
  induction chain as [|el rest IH]; simpl; [lia|].
  destruct (decide (el.1 = key)); lia.
Qed.

Lemma first_index_absent key chain :
  first_index key chain = length chain ↔ key ∉ chain.*1.
Proof.
  induction chain as [|el rest IH]; simpl.
  - split; [intros _; apply not_elem_of_nil | done].
  - rewrite not_elem_of_cons. destruct (decide (el.1 = key)) as [->|Hne].
    + split; [done | intros [? _]; done].
    + rewrite <- IH. split; [intros ?; split; [done | lia] | intros [_ ?]; lia].
Qed.

Lemma first_index_lookup key chain :
  key ∈ chain.*1 →
  ∃ v, chain !! first_index key chain = Some (key, v) ∧
       first_value key chain = Some v.
Proof.
  induction chain as [|[k w] rest IH]; simpl.
  - by intros ?%elem_of_nil.
  - intros Hin. destruct (decide (k = key)) as [->|Hne]; [by exists w|].
    apply elem_of_cons in Hin as [?|Hin]; [congruence|]. by apply IH.
Qed.

(** ** The table as one list of entries *)

Lemma elem_of_concat_lookup (t : list (list (K * V))) el :
  el ∈ concat t ↔ ∃ (i : nat) chain, t !! i = Some chain ∧ el ∈ chain.
Proof.
  induction t as [|c t IH]; simpl.
  - split; [by intros ?%elem_of_nil | by intros (i & chain & ? & _)].
  - rewrite elem_of_app, IH. split.
    + intros [Hc | (i & chain & Hi & Hel)].
      * by exists 0%nat, c.
      * by exists (S i), chain.
    + intros ([|i] & chain & Hi & Hel); simpl in Hi.
      * left. congruence.
      * right. by exists i, chain.
Qed.

Lemma concat_insert_split (t : list (list (K * V))) (i : nat) c c' :
  t !! i = Some c →
  ∃ before after,
    concat t = before ++ c ++ after ∧
    concat (<[i := c']> t) = before ++ c' ++ after.
Proof.
  revert i. induction t as [|c0 t IH]; intros [|i] Hi; simpl in *; try done.
  - injection Hi as ->. by exists [], (concat t).
  - destruct (IH i Hi) as (before & after & -> & ->).
    exists (c0 ++ before), after. by rewrite <- !app_assoc.
Qed.

Lemma concat_replicate_nil (n : nat) :
  concat (replicate n ([] : list (K * V))) = [].
Proof. induction n; simpl; auto. Qed.

Lemma chain_length_sum_entries s :
  chain_length_sum s = Z.of_nat (length (entries s)).
Proof.
  unfold chain_length_sum, entries. f_equal.
  induction (table_ s) as [|c t IH]; simpl; [done|].
  rewrite length_app. f_equal. exact IH.
Qed.

Lemma chain_nodup (t : list (list (K * V))) (i : nat) c :
  NoDup (concat t).*1 → t !! i = Some c → NoDup c.*1.
Proof.
  intros Hnd Hi.
  destruct (concat_insert_split t i c c Hi) as (before & after & Heq & _).
  rewrite Heq, !fmap_app in Hnd.
  apply list.NoDup_app in Hnd as (_ & _ & Hnd). by apply list.NoDup_app in Hnd as (? & _).
Qed.

(** ** Stored keys and the bucket of a key *)

Lemma present_stored s key : present s key ↔ ∃ v, stored s key v.
Proof.
  unfold present, stored. rewrite list_elem_of_fmap. split.
  - intros ([k v] & -> & Hin). by exists v.
  - intros (v & Hin). by exists (key, v).
Qed.

Lemma stored_home s key v chain :
  wf s → table_ s !! Z.to_nat (home s key) = Some chain →
  stored s key v ↔ (key, v) ∈ chain.
Proof.
  intros Hwf Hc. unfold stored, entries. rewrite elem_of_concat_lookup. split.
  - intros (i & chain' & Hi & Hel).
    pose proof (wf_home s Hwf i chain' (key, v) Hi Hel) as Hh. simpl in Hh.
    rewrite Hh, Nat2Z.id in Hc. congruence.
  - intros Hel. by exists (Z.to_nat (home s key)), chain.
Qed.

Lemma present_home s key chain :
  wf s → table_ s !! Z.to_nat (home s key) = Some chain →
  present s key ↔ key ∈ chain.*1.
Proof.
  intros Hwf Hc. rewrite present_stored, list_elem_of_fmap. split.
  - intros (v & Hv). exists (key, v). split; [done|]. by apply (stored_home s key v chain).
  - intros ([k v] & -> & Hin). exists v. by apply (stored_home s k v chain).
Qed.

Lemma first_value_home s key v chain :
  wf s → table_ s !! Z.to_nat (home s key) = Some chain →
  first_value key chain = Some v ↔ stored s key v.
Proof.
  intros Hwf Hc. rewrite (stored_home s key v chain Hwf Hc). split.
  - apply first_value_Some.
  - apply first_value_stored.
    exact (chain_nodup _ _ _ (wf_nodup s Hwf) Hc).
Qed.

(** ** Lock index and bucket owner *)

(** In an object whose bucket count is a positive multiple of the partition
    count, the mutex a single-key method locks is the owner of the bucket it
    works on, and that bucket exists. *)
Lemma lock_index_owner s key :
  shape s → striped s →
  let hash := to_uint64 (hasher_ s key) in
  ∃ m_idx idx chain,
    hash_of key s = Done hash s ∧
    lock_index hash s = Done m_idx s ∧
    bucket_index hash s = Done idx s ∧
    bucket_at idx s = Done chain s ∧
    owner s idx = m_idx.
Proof.
  intros Hs Hstr hash. destruct (home_bucket s key Hs) as [chain Hc].
  exists (hash mod mutex_size s), (hash mod buckets_ s), chain.
  split; [done|].
  split; [apply lock_index_Done, Hs|].
  split; [apply bucket_index_Done, Hs|].
  split.
  - unfold bucket_at. unfold home, bucket_for in Hc. fold hash in Hc. by rewrite Hc.
  - unfold owner. by apply Z.mod_mod_divide.
Qed.

(** ** Rehash *)

Lemma umod_Done s a b : b ≠ 0 → umod a b s = Done (a mod b) s.
Proof. intros Hb. unfold umod. by destruct (Z.eqb_spec b 0). Qed.

Lemma load_factor_exceeded_Done s sz b :
  b ≠ 0 →
  load_factor_exceeded sz b s = Done (kLoadFactor <? to_size_t (sz + b - 1) / b) s.
Proof.
  intros Hb. unfold load_factor_exceeded, bind, udiv.
  by destruct (Z.eqb_spec b 0).
Qed.

Lemma move_chain_cons s n el rest (temp : list (list (K * V))) chain :
  n ≠ 0 →
  temp !! Z.to_nat (bucket_for (hasher_ s) n el.1) = Some chain →
  move_chain n (el :: rest) temp s =
  move_chain n rest (<[Z.to_nat (bucket_for (hasher_ s) n el.1) := chain ++ [el]]> temp) s.
Proof.
  intros Hn Hc. simpl. unfold bind at 1, hash_of, bind at 1, get, ret. simpl.
  unfold bind. rewrite umod_Done by done.
  fold (bucket_for (hasher_ s) n el.1). by rewrite Hc.
Qed.

(** The inner loop appends to each bucket of [temp] the elements of [vec]
    that hash to it, in order, and loses and adds nothing. *)
Lemma move_chain_Done s n vec (temp : list (list (K * V))) :
  0 < n → length temp = Z.to_nat n →
  ∃ temp',
    move_chain n vec temp s = Done temp' s ∧
    length temp' = length temp ∧
    (∀ (i : nat) c, temp !! i = Some c →
       temp' !! i =
       Some (c ++ filter (λ el, bucket_for (hasher_ s) n el.1 = Z.of_nat i) vec)) ∧
    concat temp' ≡ₚ concat temp ++ vec.
Proof.
  intros Hn. revert temp. induction vec as [|el rest IH]; intros temp Hlen.
  - exists temp. split; [done|]. split; [done|]. split.
    + intros i c Hi. by rewrite filter_nil, app_nil_r.
    + by rewrite app_nil_r.
  - set (idx := Z.to_nat (bucket_for (hasher_ s) n el.1)).
    assert (0 <= bucket_for (hasher_ s) n el.1 < n) as Hr
      by (unfold bucket_for; by apply Z.mod_pos_bound).
    destruct (lookup_lt_is_Some_2 temp idx) as [c0 Hc0]; [unfold idx; lia|].
    rewrite (move_chain_cons s n el rest temp c0) by (done || lia).
    fold idx.
    destruct (IH (<[idx := c0 ++ [el]]> temp)) as (temp' & Hrun & Hlen' & Hget & Hperm).
    { by rewrite length_insert. }
    exists temp'. split; [done|]. split; [by rewrite Hlen', length_insert|]. split.
    + intros i c Hi. destruct (decide (i = idx)) as [->|Hne].
      * rewrite (Hget idx (c0 ++ [el])).
        2:{ apply list_lookup_insert_eq. by eapply lookup_lt_Some. }
        rewrite filter_cons_True by (unfold idx; lia).
        rewrite <- app_assoc. simpl. congruence.
      * rewrite (Hget i c) by (by rewrite list_lookup_insert_ne).
        rewrite filter_cons_False; [done|]. unfold idx in Hne. lia.
    + rewrite Hperm.
      destruct (concat_insert_split temp idx c0 (c0 ++ [el]) Hc0)
        as (before & after & -> & ->).
      solve_Permutation.
Qed.

Lemma move_table_Done s n tbl (temp : list (list (K * V))) :
  0 < n → length temp = Z.to_nat n →
  ∃ temp',
    move_table n tbl temp s = Done temp' s ∧
    length temp' = length temp ∧
    (∀ (i : nat) c, temp !! i = Some c →
       temp' !! i =
       Some (c ++ filter (λ el, bucket_for (hasher_ s) n el.1 = Z.of_nat i) (concat tbl))) ∧
    concat temp' ≡ₚ concat temp ++ concat tbl.
Proof.
  intros Hn. revert temp. induction tbl as [|vec tbl IH]; intros temp Hlen; simpl.
  - exists temp. split; [done|]. split; [done|]. split.
    + intros i c Hi. by rewrite filter_nil, app_nil_r.
    + by rewrite app_nil_r.
  - destruct (move_chain_Done s n vec temp Hn Hlen) as (temp1 & Hrun1 & Hlen1 & Hget1 & Hperm1).
    destruct (IH temp1) as (temp' & Hrun & Hlen' & Hget & Hperm); [congruence|].
    exists temp'. unfold bind. rewrite Hrun1.
    split; [done|]. split; [congruence|]. split.
    + intros i c Hi. rewrite (Hget i _ (Hget1 i c Hi)).
      by rewrite list.filter_app, app_assoc.
    + rewrite Hperm, Hperm1. by rewrite app_assoc.
Qed.

Lemma room_no_wrap s : room s → to_size_t (size_ s + buckets_ s - 1) = size_ s + buckets_ s - 1.
Proof. intros [? ? ? ?]. apply to_size_t_small. lia. Qed.

(** With counters in range, the test of the source is [size_ > 3 * buckets_],
    that is, the average chain length rounded up exceeds the load factor. *)
Lemma breach_iff s : room s → breach s ↔ kLoadFactor * buckets_ s < size_ s.
Proof.
  intros Hr. unfold breach, exceeded. rewrite (room_no_wrap s Hr).
  destruct Hr as [_ Hb _ _]. unfold kLoadFactor. rewrite Z.ltb_lt. split.
  - intros Hq.
    pose proof (Z.mul_div_le (size_ s + buckets_ s - 1) (buckets_ s) Hb). nia.
  - intros Hlt. apply Z.lt_le_trans with 4; [lia|].
    apply Z.div_le_lower_bound; lia.
Qed.

Lemma round_up_smallest (m lo : Z) :
  0 < m → 0 <= lo →
  smallest_multiple_geq m lo
    (if lo mod m =? 0 then lo else lo + m - lo mod m).
Proof.
  intros Hm Hlo. pose proof (Z.mod_pos_bound lo m Hm) as Hr.
  pose proof (Z.div_mod lo m ltac:(lia)) as Hdm.
  destruct (Z.eqb_spec (lo mod m) 0) as [Hz|Hnz].
  - split; [|split; [lia | auto]].
    exists (lo / m). lia.
  - split; [|split; [lia|]].
    + exists (lo / m + 1). lia.
    + intros n' [k ->] Hge.
      assert (lo / m < k) by nia. nia.
Qed.

(** [Rehash] when the test holds: the new table has the smallest multiple of
    the partition count that is at least [size_] as its bucket count, each
    bucket holds the entries that hash to it, in their former order, and the
    entries are those of the old table. *)
Lemma Rehash_grow s :
  room s → breach s →
  ∃ s',
    Rehash s = Done tt s' ∧
    mutex_size s' = mutex_size s ∧ size_ s' = size_ s ∧ hasher_ s' = hasher_ s ∧
    smallest_multiple_geq (mutex_size s) (size_ s) (buckets_ s') ∧
    buckets_ s < buckets_ s' ∧
    buckets_ s' = Z.of_nat (length (table_ s')) ∧
    (∀ i : nat, Z.of_nat i < buckets_ s' →
       table_ s' !! i = Some (filter (λ el, home s' el.1 = Z.of_nat i) (entries s))) ∧
    entries s' ≡ₚ entries s.
Proof.
  intros Hr Hb. pose proof (proj1 (breach_iff s Hr) Hb) as Hlt.
  destruct Hr as [Hm Hbk Hsz Hsum]. unfold kLoadFactor in Hlt.
  pose proof (Z.mod_pos_bound (size_ s) (mutex_size s) Hm) as Hrem.
  pose proof (round_up_smallest (mutex_size s) (size_ s) Hm Hsz) as Hsm.
  set (n := if size_ s mod mutex_size s =? 0 then size_ s
            else to_size_t (size_ s + mutex_size s - size_ s mod mutex_size s)).
  assert (n = if size_ s mod mutex_size s =? 0 then size_ s
              else size_ s + mutex_size s - size_ s mod mutex_size s) as Hn.
  { unfold n. destruct (Z.eqb_spec (size_ s mod mutex_size s) 0); [done|].
    apply to_size_t_small. lia. }
  rewrite <- Hn in Hsm. destruct (Hsm) as (_ & Hge & _).
  destruct (move_table_Done s n (table_ s) (replicate (Z.to_nat n) []))
    as (temp & Hrun & Hlen & Hget & Hperm); [lia | by rewrite length_replicate |].
  rewrite length_replicate in Hlen.
  exists (with_buckets n (with_table temp s)).
  split.
  { unfold Rehash, bind at 1, get. unfold bind at 1.
    unfold bind at 1. rewrite load_factor_exceeded_Done by lia.
    fold (exceeded s). rewrite Hb.
    unfold bind at 1. unfold bind at 1. rewrite umod_Done by lia.
    unfold bind at 1. fold n. unfold bind at 1. rewrite Hrun.
    reflexivity. }
  simpl. repeat split; try done; try lia; try apply Hsm.
  - intros i Hi. rewrite (Hget i []); [done|].
    apply lookup_replicate_2. lia.
  - unfold entries. simpl. rewrite Hperm.
    by rewrite concat_replicate_nil.
Qed.

(** [Rehash] when the test fails: nothing changes. *)
Lemma Rehash_idle s : buckets_ s ≠ 0 → ¬ breach s → Rehash s = Done tt s.
Proof.
  intros Hb Hn. unfold Rehash, bind at 1, get. unfold bind at 1.
  unfold bind at 1. rewrite load_factor_exceeded_Done by done.
  fold (exceeded s). unfold breach in Hn. by destruct (exceeded s).
Qed.

Lemma wf_room s : wf s → fits s → room s.
Proof.
  intros [[Hm Hb Hp] Hsz _ _] Hf. unfold fits in Hf.
  split; [done | done | lia | lia].
Qed.

Lemma wf_counted s : wf s → counted s.
Proof. intros [[Hm Hb _] Hsz _ _]. by split. Qed.

Lemma counted_room s : counted s → fits s → buckets_ s ≠ 0 → room s.
Proof.
  intros [Hm Hb Hsz] Hf Hnz. unfold fits in Hf. split; [done | lia | lia | lia].
Qed.

Lemma Rehash_grow_wf s s' :
  wf s → room s → breach s → Rehash s = Done tt s' → wf s'.
Proof.
  intros Hwf Hf Hb Hrun.
  destruct (Rehash_grow s Hf Hb)
    as (s1 & Hrun1 & Hm & Hsz & Hh & Hsm & Hlt & Hlen & Hget & Hperm).
  rewrite Hrun in Hrun1. injection Hrun1 as <-.
  pose proof (wf_shape s Hwf) as [Hmp Hbl Hbp].
  split.
  - split; [lia | done | lia].
  - rewrite Hsz, (wf_size s Hwf). by rewrite Hperm.
  - intros i chain el Hi Hel.
    rewrite Hget in Hi by (apply lookup_lt_Some in Hi; lia).
    injection Hi as <-. by apply list_elem_of_filter in Hel as [? _].
  - rewrite Hperm. apply Hwf.
Qed.

Lemma Rehash_grow_counted s s' :
  room s → counted s → breach s → Rehash s = Done tt s' → counted s'.
Proof.
  intros Hr Hc Hb Hrun.
  destruct (Rehash_grow s Hr Hb)
    as (s1 & Hrun1 & Hm & Hsz & Hh & Hsm & Hlt & Hlen & Hget & Hperm).
  rewrite Hrun in Hrun1. injection Hrun1 as <-.
  destruct Hc as [Hmp Hbl Hcs]. split; [lia | done |].
  rewrite Hsz, Hcs. by rewrite Hperm.
Qed.

(** ** Insert *)

Lemma Insert_no_buckets s key value : buckets_ s = 0 → Insert key value s = Undefined.
Proof.
  intros Hb. unfold Insert, bind at 1, hash_of, bind at 1, get, ret. simpl.
  unfold bind at 1. unfold lock_index, bind at 1, get, umod.
  destruct (mutex_size s =? 0); [done|]. unfold ret.
  unfold bind at 1. unfold bucket_index, bind at 1, get. by rewrite Hb.
Qed.

Lemma Insert_present_eval s key value chain :
  0 < mutex_size s → 0 < buckets_ s →
  table_ s !! Z.to_nat (home s key) = Some chain →
  has_key key chain = true →
  Insert key value s = Done false s.
Proof.
  intros Hm Hb Hc Hk. unfold Insert, bind at 1, hash_of, bind at 1, get, ret. simpl.
  unfold bind at 1. rewrite lock_index_Done by done.
  unfold bind at 1. rewrite bucket_index_Done by done.
  unfold bind, bucket_at. fold (bucket_for (hasher_ s) (buckets_ s) key).
  fold (home s key). by rewrite Hc, Hk.
Qed.

Lemma Insert_absent_eval s key value chain :
  0 < mutex_size s → 0 < buckets_ s → 0 <= size_ s < 2 ^ 64 - 1 →
  table_ s !! Z.to_nat (home s key) = Some chain →
  has_key key chain = false →
  Insert key value s =
  match (if exceeded (pushed key value s) then Rehash (pushed key value s)
         else Done tt (pushed key value s)) with
  | Done _ s' => Done true s'
  | Throw e s' => Throw e s'
  | Undefined => Undefined
  end.
Proof.
  intros Hm Hb Hsz Hc Hk.
  unfold Insert, bind at 1, hash_of, bind at 1, get, ret. simpl.
  unfold bind at 1. rewrite lock_index_Done by done.
  unfold bind at 1. rewrite bucket_index_Done by done.
  unfold bind at 1, bucket_at. fold (bucket_for (hasher_ s) (buckets_ s) key).
  fold (home s key). rewrite Hc, Hk.
  unfold bind at 1, set_bucket, modify. unfold bind at 1. unfold bind at 1.
  unfold bind at 1. unfold bind at 1. simpl.
  rewrite (to_size_t_small (size_ s + 1)) by lia.
  assert (with_size (size_ s + 1)
            (with_table (<[Z.to_nat (home s key) := chain ++ [(key, value)]]> (table_ s)) s)
          = pushed key value s) as Hp by (unfold pushed; by rewrite Hc).
  rewrite Hp.
  unfold bind at 1.
  rewrite load_factor_exceeded_Done by (simpl; lia).
  change (kLoadFactor <? to_size_t (size_ s + 1 + buckets_ s - 1) / buckets_ s)
    with (exceeded (pushed key value s)).
  unfold bind. by destruct (exceeded (pushed key value s)), (Rehash (pushed key value s)).
Qed.

Lemma pushed_entries s key value chain :
  table_ s !! Z.to_nat (home s key) = Some chain →
  entries (pushed key value s) ≡ₚ entries s ++ [(key, value)].
Proof.
  intros Hc. unfold pushed, entries. simpl. rewrite Hc. simpl.
  destruct (concat_insert_split (table_ s) _ chain (chain ++ [(key, value)]) Hc)
    as (before & after & -> & ->).
  solve_Permutation.
Qed.

Lemma pushed_counted s key value chain :
  table_ s !! Z.to_nat (home s key) = Some chain →
  counted s → counted (pushed key value s).
Proof.
  intros Hc [Hm Hb Hsz]. split.
  - done.
  - unfold pushed. simpl. by rewrite length_insert.
  - rewrite (pushed_entries s key value chain Hc), length_app. simpl.
    change (size_ (pushed key value s)) with (size_ s + 1). lia.
Qed.

Lemma pushed_wf s key value :
  wf s → ¬ present s key → wf (pushed key value s).
Proof.
  intros Hwf Hnp. destruct (home_bucket s key (wf_shape s Hwf)) as [chain Hc].
  pose proof (wf_shape s Hwf) as [Hm Hb Hp]. split.
  - split; try done. unfold pushed. simpl. by rewrite length_insert.
  - apply (pushed_counted s key value chain Hc), wf_counted, Hwf.
  - intros i c el Hi Hel.
    change (home (pushed key value s) el.1) with (home s el.1).
    unfold pushed in Hi. simpl in Hi. rewrite Hc in Hi. simpl in Hi.
    destruct (decide (i = Z.to_nat (home s key))) as [->|Hne].
    + rewrite list_lookup_insert_eq in Hi by (by eapply lookup_lt_Some).
      injection Hi as <-. apply elem_of_app in Hel as [Hel | ->%list_elem_of_singleton].
      * by apply (wf_home s Hwf _ chain).
      * simpl. pose proof (home_range s key Hp). lia.
    + rewrite list_lookup_insert_ne in Hi by done. by apply (wf_home s Hwf i c).
  - rewrite (pushed_entries s key value chain Hc), fmap_app. simpl.
    apply list.NoDup_app. split; [apply Hwf|]. split; [|apply NoDup_singleton].
    intros k Hk ->%list_elem_of_singleton. by apply Hnp.
Qed.

Lemma pushed_room s key value :
  counted s → fits s → 0 < buckets_ s → room (pushed key value s).
Proof.
  intros [Hm Hb Hsz] Hf Hp. unfold fits in Hf.
  split; unfold pushed; simpl; lia.
Qed.

Lemma Insert_absent s key value :
  wf s → fits s → ¬ present s key →
  ∃ s',
    Insert key value s = Done true s' ∧ wf s' ∧
    (s' = pushed key value s ∨
     (breach (pushed key value s) ∧ Rehash (pushed key value s) = Done tt s')) ∧
    entries s' ≡ₚ entries s ++ [(key, value)] ∧
    size_ s' = size_ s + 1 ∧ mutex_size s' = mutex_size s.
Proof.
  intros Hwf Hf Hnp. destruct (home_bucket s key (wf_shape s Hwf)) as [chain Hc].
  pose proof (wf_shape s Hwf) as [Hm Hb Hp].
  pose proof (wf_room s Hwf Hf) as [_ _ Hsz Hsum].
  assert (has_key key chain = false) as Hk.
  { apply not_true_is_false. rewrite has_key_spec.
    by rewrite <- (present_home s key chain Hwf Hc). }
  rewrite (Insert_absent_eval s key value chain) by (done || lia).
  pose proof (pushed_wf s key value Hwf Hnp) as Hwf1.
  pose proof (pushed_entries s key value chain Hc) as Hent.
  destruct (exceeded (pushed key value s)) eqn:Hex.
  - pose proof (pushed_room s key value (wf_counted s Hwf) Hf Hp) as Hroom.
    destruct (Rehash_grow (pushed key value s) Hroom Hex)
      as (s' & Hrun & Hm' & Hsz' & _ & _ & _ & _ & _ & Hperm).
    exists s'. rewrite Hrun. split; [done|].
    split; [by apply (Rehash_grow_wf (pushed key value s))|].
    split; [by right|]. split; [by rewrite Hperm|]. by rewrite Hsz', Hm'.
  - exists (pushed key value s). split; [done|]. split; [done|].
    split; [by left|]. done.
Qed.

(** ** Find and At on a well-formed object *)

Lemma Find_stored s key v :
  wf s → stored s key v → Find V_default key s = Done (true, v) s.
Proof.
  intros Hwf Hst. destruct (home_bucket s key (wf_shape s Hwf)) as [chain Hc].
  rewrite (Find_eval s key chain) by (done || apply Hwf).
  by rewrite (proj2 (first_value_home s key v chain Hwf Hc) Hst).
Qed.

Lemma At_stored s key v : wf s → stored s key v → At key s = Done v s.
Proof.
  intros Hwf Hst. destruct (home_bucket s key (wf_shape s Hwf)) as [chain Hc].
  rewrite (At_eval s key chain) by (done || apply Hwf).
  by rewrite (proj2 (first_value_home s key v chain Hwf Hc) Hst).
Qed.

Lemma first_value_absent s key chain :
  wf s → table_ s !! Z.to_nat (home s key) = Some chain →
  ¬ present s key → first_value key chain = None.
Proof.
  intros Hwf Hc Hnp. apply first_value_None.
  by rewrite <- (present_home s key chain Hwf Hc).
Qed.

Lemma Find_absent s key :
  wf s → ¬ present s key → Find V_default key s = Done (false, V_default) s.
Proof.
  intros Hwf Hnp. destruct (home_bucket s key (wf_shape s Hwf)) as [chain Hc].
  rewrite (Find_eval s key chain) by (done || apply Hwf).
  by rewrite (first_value_absent s key chain).
Qed.

Lemma At_absent s key :
  wf s → ¬ present s key → At key s = Throw out_of_range s.
Proof.
  intros Hwf Hnp. destruct (home_bucket s key (wf_shape s Hwf)) as [chain Hc].
  rewrite (At_eval s key chain) by (done || apply Hwf).
  by rewrite (first_value_absent s key chain).
Qed.

Lemma present_dec s key : present s key ∨ ¬ present s key.
Proof. unfold present. destruct (decide (key ∈ (entries s).*1)); auto. Qed.

(** ** Erase *)

Lemma Erase_no_buckets s key : buckets_ s = 0 → Erase key s = Undefined.
Proof.
  intros Hb. unfold Erase, bind at 1, hash_of, bind at 1, get, ret. simpl.
  unfold bind at 1. unfold lock_index, bind at 1, get, umod.
  destruct (mutex_size s =? 0); [done|]. unfold ret.
  unfold bind at 1. unfold bucket_index, bind at 1, get. by rewrite Hb.
Qed.

Lemma Erase_eval s key chain :
  0 < mutex_size s → 0 < buckets_ s → 1 <= size_ s <= 2 ^ 64 →
  table_ s !! Z.to_nat (home s key) = Some chain →
  Erase key s =
  if (first_index key chain =? length chain)%nat then Done false s
  else Done true (erased key s).
Proof.
  intros Hm Hb Hsz Hc.
  unfold Erase, bind at 1, hash_of, bind at 1, get, ret. simpl.
  unfold bind at 1. rewrite lock_index_Done by done.
  unfold bind at 1. rewrite bucket_index_Done by done.
  unfold bind at 1, bucket_at. fold (bucket_for (hasher_ s) (buckets_ s) key).
  fold (home s key). rewrite Hc.
  destruct (first_index key chain =? length chain)%nat; [done|].
  unfold bind, set_bucket, modify. simpl.
  rewrite (to_size_t_small (size_ s - 1)) by lia.
  unfold erased. by rewrite Hc.
Qed.

Lemma Erase_absent_eval s key chain :
  0 < mutex_size s → 0 < buckets_ s →
  table_ s !! Z.to_nat (home s key) = Some chain →
  first_index key chain = length chain →
  Erase key s = Done false s.
Proof.
  intros Hm Hb Hc Hi.
  unfold Erase, bind at 1, hash_of, bind at 1, get, ret. simpl.
  unfold bind at 1. rewrite lock_index_Done by done.
  unfold bind at 1. rewrite bucket_index_Done by done.
  unfold bind at 1, bucket_at. fold (bucket_for (hasher_ s) (buckets_ s) key).
  fold (home s key). rewrite Hc, Hi. by rewrite Nat.eqb_refl.
Qed.

Lemma erased_entries s key chain el :
  table_ s !! Z.to_nat (home s key) = Some chain →
  chain !! first_index key chain = Some el →
  entries s ≡ₚ el :: entries (erased key s).
Proof.
  intros Hc Hel. unfold erased, entries. simpl. rewrite Hc. simpl.
  destruct (concat_insert_split (table_ s) _ chain
              (delete (first_index key chain) chain) Hc)
    as (before & after & -> & ->).
  rewrite (delete_Permutation chain _ el Hel) at 1. solve_Permutation.
Qed.

Lemma erased_counted s key chain el :
  table_ s !! Z.to_nat (home s key) = Some chain →
  chain !! first_index key chain = Some el →
  counted s → counted (erased key s).
Proof.
  intros Hc Hel [Hm Hb Hsz]. split.
  - done.
  - unfold erased. simpl. by rewrite length_insert.
  - change (size_ (erased key s)) with (size_ s - 1).
    rewrite Hsz, (erased_entries s key chain el Hc Hel). simpl. lia.
Qed.

Lemma erased_wf s key chain v :
  table_ s !! Z.to_nat (home s key) = Some chain →
  chain !! first_index key chain = Some (key, v) →
  wf s → wf (erased key s) ∧ ¬ present (erased key s) key.
Proof.
  intros Hc Hel Hwf. pose proof (wf_shape s Hwf) as [Hm Hb Hp].
  pose proof (wf_nodup s Hwf) as Hnd.
  rewrite (erased_entries s key chain (key, v) Hc Hel) in Hnd. simpl in Hnd.
  apply list.NoDup_cons in Hnd as [Hnin Hnd].
  split; [|done]. split.
  - split; try done. unfold erased. simpl. by rewrite length_insert.
  - eapply erased_counted; eauto using wf_counted.
  - intros i c el Hi Hin.
    change (home (erased key s) el.1) with (home s el.1).
    unfold erased in Hi. simpl in Hi. rewrite Hc in Hi. simpl in Hi.
    destruct (decide (i = Z.to_nat (home s key))) as [->|Hne].
    + rewrite list_lookup_insert_eq in Hi by (by eapply lookup_lt_Some).
      injection Hi as <-. apply (wf_home s Hwf _ chain); [done|].
      by eapply list_elem_of_delete_inv.
    + rewrite list_lookup_insert_ne in Hi by done. by apply (wf_home s Hwf i c).
  - done.
Qed.

(** ** Clear *)

Lemma Clear_eval s : Clear s = Done tt (cleared s).
Proof. reflexivity. Qed.

Lemma concat_map_nil (t : list (list (K * V))) :
  concat (map (λ _, []) t) = ([] : list (K * V)).
Proof. induction t; simpl; auto. Qed.

Lemma cleared_entries s : entries (cleared s) = [].
Proof. unfold entries, cleared. simpl. apply concat_map_nil. Qed.

Lemma cleared_counted s : counted s → counted (cleared s).
Proof.
  intros [Hm Hb _]. split; [done | |].
  - unfold cleared. simpl. by rewrite length_map.
  - by rewrite cleared_entries.
Qed.

Lemma cleared_wf s : shape s → wf (cleared s).
Proof.
  intros [Hm Hb Hp]. split.
  - split; try done. unfold cleared. simpl. by rewrite length_map.
  - by rewrite cleared_entries.
  - intros i chain el Hi Hel. unfold cleared in Hi. simpl in Hi.
    change (map (λ _, []) (table_ s)) with ((λ _ : list (K * V), ([] : list (K * V))) <$> table_ s) in Hi.
    apply list_lookup_fmap_Some in Hi as (c & -> & _). by apply elem_of_nil in Hel.
  - rewrite cleared_entries. apply NoDup_nil_2.
Qed.

Lemma Erase_present s key :
  wf s → fits s → present s key →
  ∃ v,
    stored s key v ∧ Erase key s = Done true (erased key s) ∧
    wf (erased key s) ∧ ¬ present (erased key s) key ∧
    entries s ≡ₚ (key, v) :: entries (erased key s).
Proof.
  intros Hwf Hf Hpr. destruct (home_bucket s key (wf_shape s Hwf)) as [chain Hc].
  pose proof (wf_shape s Hwf) as [Hm Hb Hp].
  pose proof (wf_room s Hwf Hf) as [_ _ Hsz Hsum].
  pose proof (proj1 (present_home s key chain Hwf Hc) Hpr) as Hin.
  destruct (first_index_lookup key chain Hin) as (v & Hel & Hv).
  pose proof (erased_entries s key chain (key, v) Hc Hel) as Hperm.
  destruct (erased_wf s key chain v Hc Hel Hwf) as [Hwf' Hnp].
  exists v. split; [by apply (first_value_home s key v chain)|].
  split; [|done].
  rewrite (Erase_eval s key chain); try done.
  - destruct (Nat.eqb_spec (first_index key chain) (length chain)) as [Heq|]; [|done].
    by apply first_index_absent in Heq.
  - pose proof (wf_size s Hwf) as Hlen. rewrite Hperm in Hlen. simpl in Hlen. lia.
Qed.

Lemma Erase_absent s key : wf s → ¬ present s key → Erase key s = Done false s.
Proof.
  intros Hwf Hnp. destruct (home_bucket s key (wf_shape s Hwf)) as [chain Hc].
  apply (Erase_absent_eval s key chain); try done; try apply Hwf.
  apply first_index_absent. by rewrite <- (present_home s key chain Hwf Hc).
Qed.

(** ** Methods that only read *)

Lemma lock_index_cases s hash :
  lock_index hash s = Undefined ∨ ∃ m_idx, lock_index hash s = Done m_idx s.
Proof.
  unfold lock_index, bind, get, umod.
  destruct (mutex_size s =? 0); [by left | right; by eexists].
Qed.

Lemma bucket_index_cases s hash :
  bucket_index hash s = Undefined ∨ ∃ idx, bucket_index hash s = Done idx s.
Proof.
  unfold bucket_index, bind, get, umod.
  destruct (buckets_ s =? 0); [by left | right; by eexists].
Qed.

Lemma Find_reads s key r s' : Find V_default key s = Done r s' → s' = s.
Proof.
  unfold Find, bind at 1, hash_of, bind at 1, get, ret. simpl.
  unfold bind at 1.
  destruct (lock_index_cases s (to_uint64 (hasher_ s key))) as [->|[m ->]]; [done|].
  unfold bind at 1.
  destruct (bucket_index_cases s (to_uint64 (hasher_ s key))) as [->|[i ->]]; [done|].
  unfold bind, bucket_at.
  destruct (table_ s !! _) as [chain|]; [|done].
  destruct (first_value key chain); congruence.
Qed.

Lemma At_cases s key :
  match At key s with
  | Done _ s' => s' = s
  | Throw e s' => e = out_of_range ∧ s' = s
  | Undefined => True
  end.
Proof.
  unfold At, bind at 1, hash_of, bind at 1, get, ret. simpl.
  unfold bind at 1.
  destruct (lock_index_cases s (to_uint64 (hasher_ s key))) as [->|[m ->]]; [done|].
  unfold bind at 1.
  destruct (bucket_index_cases s (to_uint64 (hasher_ s key))) as [->|[i ->]]; [done|].
  unfold bind, bucket_at.
  destruct (table_ s !! _) as [chain|]; [|done].
  unfold throw. by destruct (first_value key chain).
Qed.

Lemma At_reads s key :
  (∀ r s', At key s = Done r s' → s' = s) ∧
  (∀ e s', At key s = Throw e s' → s' = s).
Proof.
  pose proof (At_cases s key) as Hc. split.
  - intros r s' Hrun. by rewrite Hrun in Hc.
  - intros e s' Hrun. rewrite Hrun in Hc. by destruct Hc.
Qed.

Lemma Rehash_no_buckets s : buckets_ s = 0 → Rehash s = Undefined.
Proof.
  intros Hb. unfold Rehash, bind at 1, get. unfold bind at 1. unfold bind at 1.
  unfold load_factor_exceeded, bind, udiv. by rewrite Hb.
Qed.

(** ** Every call keeps the invariants *)

Lemma counted_bucket s key :
  counted s → buckets_ s ≠ 0 →
  0 < buckets_ s ∧ ∃ chain, table_ s !! Z.to_nat (home s key) = Some chain.
Proof.
  intros [Hm Hb _] Hnz. assert (0 < buckets_ s) as Hp by lia. split; [done|].
  apply lookup_lt_is_Some_2. pose proof (home_range s key Hp). lia.
Qed.

Lemma Insert_counted s key value r s' :
  counted s → fits s → Insert key value s = Done r s' → counted s'.
Proof.
  intros Hc Hf Hrun. destruct (decide (buckets_ s = 0)) as [Hz|Hnz].
  { by rewrite Insert_no_buckets in Hrun. }
  destruct (counted_bucket s key Hc Hnz) as (Hp & chain & Hch).
  pose proof (counted_room s Hc Hf Hnz) as [Hm _ Hsz Hsum].
  destruct (has_key key chain) eqn:Hk.
  - rewrite (Insert_present_eval s key value chain) in Hrun by done. congruence.
  - rewrite (Insert_absent_eval s key value chain) in Hrun by (done || lia).
    pose proof (pushed_counted s key value chain Hch Hc) as Hc1.
    destruct (exceeded (pushed key value s)) eqn:Hex; [|congruence].
    destruct (Rehash (pushed key value s)) as [[] s1| |] eqn:Hre; try done.
    injection Hrun as _ <-.
    by apply (Rehash_grow_counted (pushed key value s) s1); [apply pushed_room| | |].
Qed.

Lemma Erase_counted s key r s' :
  counted s → fits s → Erase key s = Done r s' → counted s'.
Proof.
  intros Hc Hf Hrun. destruct (decide (buckets_ s = 0)) as [Hz|Hnz].
  { by rewrite Erase_no_buckets in Hrun. }
  destruct (counted_bucket s key Hc Hnz) as (Hp & chain & Hch).
  pose proof (counted_room s Hc Hf Hnz) as [Hm _ Hsz Hsum].
  destruct (decide (first_index key chain = length chain)) as [Heq|Hne].
  - rewrite (Erase_absent_eval s key chain) in Hrun by done. congruence.
  - destruct (lookup_lt_is_Some_2 chain (first_index key chain)) as [el Hel].
    { pose proof (first_index_le key chain). lia. }
    pose proof (erased_entries s key chain el Hch Hel) as Hperm.
    rewrite (Erase_eval s key chain) in Hrun; try done.
    + destruct (Nat.eqb_spec (first_index key chain) (length chain)); [done|].
      injection Hrun as _ <-. by apply (erased_counted s key chain el).
    + pose proof (counted_size s Hc) as Hlen. rewrite Hperm in Hlen.
      simpl in Hlen. lia.
Qed.

Lemma Rehash_counted s s' :
  counted s → fits s → Rehash s = Done tt s' → counted s'.
Proof.
  intros Hc Hf Hrun. destruct (decide (buckets_ s = 0)) as [Hz|Hnz].
  { by rewrite Rehash_no_buckets in Hrun. }
  destruct (exceeded s) eqn:Hex.
  - by apply (Rehash_grow_counted s s'); [apply counted_room| | |].
  - rewrite Rehash_idle in Hrun; [congruence | done |].
    unfold breach. by rewrite Hex.
Qed.

Lemma run_counted s c s' :
  counted s → fits s → run V_default c s = Done tt s' → counted s'.
Proof.
  intros Hc Hf. destruct c as [key value|key| |key|key| |]; simpl; unfold bind.
  - destruct (Insert key value s) as [r s1| |] eqn:Hrun; try done.
    intros [= <-]. by apply (Insert_counted s key value r s1).
  - destruct (Erase key s) as [r s1| |] eqn:Hrun; try done.
    intros [= <-]. by apply (Erase_counted s key r s1).
  - rewrite Clear_eval. intros [= <-]. by apply cleared_counted.
  - destruct (Find V_default key s) as [r s1| |] eqn:Hrun; try done.
    intros [= <-]. by rewrite (Find_reads s key r s1 Hrun).
  - destruct (At key s) as [r s1| |] eqn:Hrun; try done.
    intros [= <-]. by rewrite (proj1 (At_reads s key) r s1 Hrun).
  - unfold Size, get. by intros [= <-].
  - by apply Rehash_counted.
Qed.

Lemma run_wf s c s' : wf s → fits s → run V_default c s = Done tt s' → wf s'.
Proof.
  intros Hwf Hf. destruct c as [key value|key| |key|key| |]; simpl; unfold bind.
  - destruct (present_dec s key) as [Hpr|Hnp].
    + destruct (home_bucket s key (wf_shape s Hwf)) as [chain Hch].
      rewrite (Insert_present_eval s key value chain); try done; try apply Hwf.
      * by intros [= <-].
      * apply has_key_spec. by rewrite <- (present_home s key chain Hwf Hch).
    + destruct (Insert_absent s key value Hwf Hf Hnp) as (s1 & -> & Hwf1 & _).
      by intros [= <-].
  - destruct (present_dec s key) as [Hpr|Hnp].
    + destruct (Erase_present s key Hwf Hf Hpr) as (v & _ & -> & Hwf1 & _).
      by intros [= <-].
    + rewrite (Erase_absent s key Hwf Hnp). by intros [= <-].
  - rewrite Clear_eval. intros [= <-]. apply cleared_wf, Hwf.
  - destruct (Find V_default key s) as [r s1| |] eqn:Hrun; try done.
    intros [= <-]. by rewrite (Find_reads s key r s1 Hrun).
  - destruct (At key s) as [r s1| |] eqn:Hrun; try done.
    intros [= <-]. by rewrite (proj1 (At_reads s key) r s1 Hrun).
  - unfold Size, get. by intros [= <-].
  - intros Hrun. destruct (exceeded s) eqn:Hex.
    + by apply (Rehash_grow_wf s s'); [|apply wf_room| |].
    + rewrite Rehash_idle in Hrun; [congruence | |].
      * pose proof (shape_positive s (wf_shape s Hwf)). lia.
      * unfold breach. by rewrite Hex.
Qed.

Lemma reachable_from_counted s0 s :
  counted s0 → fits s0 → reachable_from V_default s0 s → counted s ∧ fits s.
Proof.
  intros Hc Hf Hreach. induction Hreach as [|s c s' _ [IHc IHf] Hrun Hfits]; [done|].
  split; [|done]. by apply (run_counted s c s').
Qed.

Lemma reachable_from_wf s0 s :
  wf s0 → fits s0 → reachable_from V_default s0 s → wf s ∧ fits s.
Proof.
  intros Hwf Hf Hreach. induction Hreach as [|s c s' _ [IHw IHf] Hrun Hfits]; [done|].
  split; [|done]. by apply (run_wf s c s').
Qed.

(** ** Checking the invariant by computation *)

Lemma placed_from_sound s (i : nat) (t : list (list (K * V))) :
  placed_from s i t = true →
  ∀ (j : nat) chain el,
    t !! j = Some chain → el ∈ chain → home s el.1 = Z.of_nat (i + j).
Proof.
  revert i. induction t as [|c t IH]; intros i Hp j chain el Hj Hel; [done|].
  simpl in Hp. apply andb_prop in Hp as [Hc Ht]. destruct j as [|j]; simpl in Hj.
  - injection Hj as <-. rewrite forallb_forall in Hc.
    rewrite Nat.add_0_r. apply Z.eqb_eq, Hc. by apply list_elem_of_In.
  - rewrite <- Nat.add_succ_comm. by apply (IH (S i) Ht j chain).
Qed.

Lemma wf_check_sound s : wf_check s = true → wf s.
Proof.
  unfold wf_check. intros H0.
  apply andb_prop in H0 as [H0 Hnd]. apply andb_prop in H0 as [H0 Hpl].
  apply andb_prop in H0 as [H0 Hsz].
  apply andb_prop in H0 as [H0 Hpos]. apply andb_prop in H0 as [Hm Hb].
  apply Z.ltb_lt in Hm, Hpos. apply Z.eqb_eq in Hb, Hsz.
  split.
  - by split.
  - done.
  - intros i chain el Hi Hel.
    exact (placed_from_sound s 0 (table_ s) Hpl i chain el Hi Hel).
  - by apply bool_decide_eq_true in Hnd.
Qed.

(** ** Construction *)

Lemma new_counted expected_size expected_threads_count hasher (s0 : ConcurrentHashMap K V) :
  ConcurrentHashMap_new expected_size expected_threads_count hasher = Some s0 →
  counted s0.
Proof.
  unfold ConcurrentHashMap_new. intros Hnew.
  destruct (expected_size =? kUndefinedSize).
  - injection Hnew as <-. split; simpl; [lia | done |].
    unfold entries. simpl. by rewrite concat_replicate_nil.
  - destruct (INT_MAX <? expected_size + kLoadFactor); [done|].
    injection Hnew as <-. split; simpl; [lia | done |].
    unfold entries. simpl. by rewrite concat_replicate_nil.
Qed.

Lemma replicate_nil_wf (m n : Z) (hasher : K → Z) :
  0 < m → 0 < n →
  wf {| table_ := replicate (Z.to_nat n) ([] : list (K * V)); mutex_size := m;
        size_ := 0; buckets_ := Z.of_nat (length (replicate (Z.to_nat n) ([] : list (K * V))));
        hasher_ := hasher |}.
Proof.
  intros Hm Hn. rewrite length_replicate, Z2Nat.id by lia. split.
  - split; simpl; [done | | done]. rewrite length_replicate. lia.
  - unfold entries. simpl. by rewrite concat_replicate_nil.
  - simpl. intros i chain el [-> _]%lookup_replicate Hel. by apply elem_of_nil in Hel.
  - unfold entries. simpl. rewrite concat_replicate_nil. apply NoDup_nil_2.
Qed.

(** The constructor on the sentinel or a positive expected size: the object
    is well formed and empty, with [max(8, expected_threads_count)]
    partitions; the bucket count is the partition count for the sentinel and
    else the smallest multiple of it that is at least
    [ceil(expected_size / kLoadFactor)]. *)
Lemma new_sized expected_size expected_threads_count hasher :
  sized_input expected_size → is_int expected_threads_count →
  ∃ s0 : ConcurrentHashMap K V,
    ConcurrentHashMap_new expected_size expected_threads_count hasher = Some s0 ∧
    wf s0 ∧ fits s0 ∧ size_ s0 = 0 ∧
    mutex_size s0 = Z.max 8 expected_threads_count ∧
    (expected_size = kUndefinedSize → buckets_ s0 = mutex_size s0) ∧
    (expected_size ≠ kUndefinedSize →
     smallest_multiple_geq (mutex_size s0)
       (ceil_div expected_size kLoadFactor) (buckets_ s0)).
Proof.
  unfold sized_input, is_int, INT_MAX, INT_MIN, kUndefinedSize, kLoadFactor, ceil_div.
  intros Hsz Hint. unfold ConcurrentHashMap_new, kUndefinedSize, kLoadFactor, INT_MAX.
  set (tc := Z.max 8 expected_threads_count).
  assert (8 <= tc < 2 ^ 31) as Htc by (unfold tc; lia).
  destruct (Z.eqb_spec expected_size (-1)) as [->|Hne].
  - eexists. split; [reflexivity|].
    split; [apply replicate_nil_wf; lia|].
    unfold fits, entries. simpl.
    rewrite concat_replicate_nil, length_replicate. simpl.
    split; [lia|]. split; [done|]. split; [done|]. split; [lia | done].
  - destruct Hsz as [?|Hsz]; [done|].
    destruct (Z.ltb_spec (2 ^ 31 - 1) (expected_size + 3)); [lia|].
    rewrite Z.quot_div_nonneg by lia.
    set (e := (expected_size + 3 - 1) / 3).
    assert (1 <= e < 2 ^ 31) as He.
    { unfold e. split.
      - apply Z.div_le_lower_bound; lia.
      - apply Z.div_lt_upper_bound; lia. }
    rewrite (to_size_t_small e) by lia.
    pose proof (Z.mod_pos_bound e tc ltac:(lia)) as Hrem.
    pose proof (round_up_smallest tc e ltac:(lia) ltac:(lia)) as Hsm.
    set (size := if e mod tc =? 0 then e else to_size_t (e + tc - e mod tc)).
    assert (size = if e mod tc =? 0 then e else e + tc - e mod tc) as Hsize.
    { unfold size. destruct (e mod tc =? 0); [done|]. apply to_size_t_small. lia. }
    rewrite <- Hsize in Hsm. destruct (Hsm) as (Hdiv & Hge & _).
    assert (size <= e + tc) as Hle by (rewrite Hsize; destruct (e mod tc =? 0); lia).
    eexists. split; [reflexivity|].
    split; [apply replicate_nil_wf; lia|].
    unfold fits, entries. simpl.
    rewrite concat_replicate_nil, length_replicate. simpl.
    split; [lia|]. split; [done|]. split; [done|]. split; [done|].
    intros _. by rewrite Z2Nat.id by lia.
Qed.

(** ** What no call changes *)

(** [Rehash] keeps the number of mutexes and [size_], keeps the bucket count
    a multiple of the partition count, and does not decrease it. *)
Lemma Rehash_frame s s' :
  room s → Rehash s = Done tt s' →
  mutex_size s' = mutex_size s ∧ size_ s' = size_ s ∧
  (striped s → striped s') ∧ buckets_ s <= buckets_ s'.
Proof.
  intros Hr Hrun. destruct (exceeded s) eqn:Hex.
  - destruct (Rehash_grow s Hr Hex) as (s1 & Heq & Hm & Hsz & _ & Hsm & Hlt & _).
    rewrite Hrun in Heq. injection Heq as <-.
    split; [done|]. split; [done|]. split; [|lia].
    intros _. unfold striped. rewrite Hm. apply Hsm.
  - rewrite Rehash_idle in Hrun.
    + injection Hrun as <-. repeat split; (done || lia).
    + destruct Hr. lia.
    + unfold breach. by rewrite Hex.
Qed.

(** No call changes the number of mutexes, none decreases the bucket count,
    and the bucket count stays a multiple of the partition count. *)
Lemma run_frame s c s' :
  wf s → fits s → run V_default c s = Done tt s' →
  mutex_size s' = mutex_size s ∧ (striped s → striped s') ∧
  buckets_ s <= buckets_ s'.
Proof.
  intros Hwf Hf Hrun.
  assert (∀ s1, s1 = s →
            mutex_size s1 = mutex_size s ∧ (striped s → striped s1) ∧
            buckets_ s <= buckets_ s1) as Hsame
    by (intros s1 ->; repeat split; (done || lia)).
  destruct c as [key value|key| |key|key| |]; simpl in Hrun; unfold bind in Hrun.
  - destruct (present_dec s key) as [Hpr|Hnp].
    + destruct (home_bucket s key (wf_shape s Hwf)) as [chain Hch].
      rewrite (Insert_present_eval s key value chain) in Hrun;
        try done; try apply Hwf.
      * injection Hrun as <-. by apply Hsame.
      * apply has_key_spec. by rewrite <- (present_home s key chain Hwf Hch).
    + destruct (Insert_absent s key value Hwf Hf Hnp)
        as (s1 & Heq & _ & Hcase & _ & _ & _).
      rewrite Heq in Hrun. injection Hrun as <-.
      destruct Hcase as [->|[_ Hre]]; [repeat split; (done || simpl; lia)|].
      pose proof (pushed_room s key value (wf_counted s Hwf) Hf
                    (shape_positive s (wf_shape s Hwf))) as Hroom.
      exact (match Rehash_frame (pushed key value s) s1 Hroom Hre with
             | conj Hm (conj _ (conj Hstr Hle)) => conj Hm (conj Hstr Hle)
             end).
  - destruct (present_dec s key) as [Hpr|Hnp].
    + destruct (Erase_present s key Hwf Hf Hpr) as (v & _ & Heq & _).
      rewrite Heq in Hrun. injection Hrun as <-. repeat split; (done || simpl; lia).
    + rewrite (Erase_absent s key Hwf Hnp) in Hrun. injection Hrun as <-.
      by apply Hsame.
  - rewrite Clear_eval in Hrun. injection Hrun as <-.
    repeat split; (done || simpl; lia).
  - destruct (Find V_default key s) as [r s1| |] eqn:Hf1; try done.
    injection Hrun as <-. by apply Hsame, (Find_reads s key r).
  - destruct (At key s) as [r s1| |] eqn:Hf1; try done.
    injection Hrun as <-. by apply Hsame, (proj1 (At_reads s key) r).
  - unfold Size, get in Hrun. injection Hrun as <-. by apply Hsame.
  - destruct (Rehash_frame s s' (wf_room s Hwf Hf) Hrun) as (Hm & _ & Hstr & Hle).
    by repeat split.
Qed.

(** An object constructed from the sentinel or a positive expected size is,
    after any sequence of completed calls, well formed, with the partition
    count of its construction, a bucket count that is a positive multiple of
    it and no smaller than the one of its construction. *)
Lemma reachable_sized_shape expected_size expected_threads_count hasher
    (s0 s : ConcurrentHashMap K V) :
  sized_input expected_size → is_int expected_threads_count →
  ConcurrentHashMap_new expected_size expected_threads_count hasher = Some s0 →
  reachable_from V_default s0 s →
  wf s ∧ striped s ∧ 0 < buckets_ s ∧
  mutex_size s = mutex_size s0 ∧ buckets_ s0 <= buckets_ s.
Proof.
  intros Hsz Hint Hnew Hreach.
  destruct (new_sized expected_size expected_threads_count hasher Hsz Hint)
    as (s1 & Hnew1 & Hwf & Hf & _ & _ & Hunknown & Hknown).
  rewrite Hnew in Hnew1. injection Hnew1 as <-.
  assert (striped s0) as Hstr0.
  { unfold striped. destruct (decide (expected_size = kUndefinedSize)) as [He|He].
    - by rewrite (Hunknown He).
    - apply (Hknown He). }
  induction Hreach as [|s c s' Hreach (IHw & IHs & _ & IHm & IHb) Hrun Hfits].
  { split; [done|]. split; [done|]. split; [apply Hwf | done]. }
  destruct (reachable_from_wf s0 s Hwf Hf Hreach) as [Hwfs Hfs].
  destruct (run_frame s c s' Hwfs Hfs Hrun) as (Hm & Hstr & Hle).
  pose proof (run_wf s c s' Hwfs Hfs Hrun) as Hwf'.
  split; [done|]. split; [by apply Hstr|]. split; [apply Hwf'|]. split; lia.
Qed.

(** For such an object, in every state reached, the mutex a single-key
    method locks is the owner of the bucket it works on. *)
Lemma reachable_sized_lock_owner expected_size expected_threads_count hasher
    (s0 s : ConcurrentHashMap K V) key :
  sized_input expected_size → is_int expected_threads_count →
  ConcurrentHashMap_new expected_size expected_threads_count hasher = Some s0 →
  reachable_from V_default s0 s →
  ∃ m_idx idx chain,
    hash_of key s = Done (to_uint64 (hasher_ s key)) s ∧
    lock_index (to_uint64 (hasher_ s key)) s = Done m_idx s ∧
    bucket_index (to_uint64 (hasher_ s key)) s = Done idx s ∧
    bucket_at idx s = Done chain s ∧
    owner s idx = m_idx.
Proof.
  intros Hsz Hint Hnew Hreach.
  destruct (reachable_sized_shape _ _ _ s0 s Hsz Hint Hnew Hreach)
    as (Hwf & Hstr & _).
  exact (lock_index_owner s key (wf_shape s Hwf) Hstr).
Qed.

(** An object constructed with no bucket stays without bucket: only [Clear]
    and [Size] return on it. *)
Lemma run_no_buckets s c s' :
  buckets_ s = 0 → table_ s = [] → size_ s = 0 →
  run V_default c s = Done tt s' → s' = s.
Proof.
  intros Hb Ht Hsz.
  destruct c as [key value|key| |key|key| |]; simpl; unfold bind.
  - by rewrite Insert_no_buckets.
  - by rewrite Erase_no_buckets.
  - rewrite Clear_eval. intros [= <-]. unfold cleared. rewrite Ht. simpl.
    destruct s. simpl in *. by subst.
  - destruct (Find V_default key s) as [r s1| |] eqn:Hrun; try done.
    intros [= <-]. by apply (Find_reads s key r).
  - destruct (At key s) as [r s1| |] eqn:Hrun; try done.
    intros [= <-]. by apply (proj1 (At_reads s key) r).
  - unfold Size, get. by intros [= <-].
  - by rewrite Rehash_no_buckets.
Qed.

(** Whatever the constructor was given, the object is well formed after any
    sequence of completed calls, unless it was constructed without bucket. *)
Lemma reachable_wf s :
  reachable V_default s → buckets_ s ≠ 0 → wf s ∧ fits s.
Proof.
  intros (e & t & h & s0 & _ & _ & Hnew & Hf & Hreach) Hnz.
  assert (wf s0 ∨ (buckets_ s0 = 0 ∧ table_ s0 = [] ∧ size_ s0 = 0)) as [Hwf|Hempty].
  { revert Hnew. unfold ConcurrentHashMap_new.
    destruct (e =? kUndefinedSize).
    - intros [= <-]. left. apply replicate_nil_wf; lia.
    - destruct (INT_MAX <? e + kLoadFactor); [done|].
      set (size := if _ =? 0 then _ else _).
      intros [= <-]. destruct (decide (0 < size)) as [Hpos|Hneg].
      + left. apply replicate_nil_wf; lia.
      + right. simpl. assert (Z.to_nat size = 0%nat) as -> by lia. done. }
  - by apply (reachable_from_wf s0 s).
  - exfalso. apply Hnz. clear Hnz. destruct Hempty as (Hb & Ht & Hsz).
    assert (s = s0) as ->; [|done].
    induction Hreach as [|s c s' _ IH Hrun _]; [done|]. subst s.
    by apply (run_no_buckets s0 c s').
Qed.

(** * The claims *)

(** C3. [Insert(key, value)] on a well-formed object.  When [key] is stored
    with a value [v], the call returns [false] and leaves the object as it
    was, so [key] still has the value [v].  When [key] is absent, the call
    returns [true]; the entry is pushed to the back of bucket
    [hash(key) % buckets_] and [size_] goes up by one, and this state, or the
    one [Rehash] makes of it when the load factor is exceeded, is the state
    left; in it [size_] is one more than before, [key] has the value [value]
    and every other key is as before. *)
Theorem Insert_first_writer_wins s key value :
  wf s → fits s →
  (∀ v, stored s key v →
     Insert key value s = Done false s ∧ Find V_default key s = Done (true, v) s) ∧
  (¬ present s key →
   ∃ chain s',
     home s key = to_uint64 (hasher_ s key) mod buckets_ s ∧
     table_ s !! Z.to_nat (home s key) = Some chain ∧
     table_ (pushed key value s) =
       <[Z.to_nat (home s key) := chain ++ [(key, value)]]> (table_ s) ∧
     size_ (pushed key value s) = size_ s + 1 ∧
     Insert key value s = Done true s' ∧
     (s' = pushed key value s ∨
      (breach (pushed key value s) ∧ Rehash (pushed key value s) = Done tt s')) ∧
     size_ s' = size_ s + 1 ∧
     Find V_default key s' = Done (true, value) s' ∧
     ∀ k v, k ≠ key → stored s' k v ↔ stored s k v).
Proof.
  intros Hwf Hf. split.
  - intros v Hst. split; [|by apply Find_stored].
    destruct (home_bucket s key (wf_shape s Hwf)) as [chain Hch].
    apply (Insert_present_eval s key value chain); try done; try apply Hwf.
    apply has_key_spec, (present_home s key chain Hwf Hch), present_stored.
    by exists v.
  - intros Hnp. destruct (home_bucket s key (wf_shape s Hwf)) as [chain Hch].
    destruct (Insert_absent s key value Hwf Hf Hnp)
      as (s' & Hrun & Hwf' & Hcase & Hperm & Hsz & _).
    exists chain, s'. split; [done|]. split; [done|].
    split. { unfold pushed. simpl. by rewrite Hch. }
    split; [done|]. split; [done|]. split; [done|]. split; [done|]. split.
    + apply Find_stored; [done|]. unfold stored. rewrite Hperm.
      apply elem_of_app. right. by apply list_elem_of_singleton.
    + intros k v Hne. unfold stored. rewrite Hperm, elem_of_app, list_elem_of_singleton.
      split; [|by left]. intros [?|[= ? ?]]; [done | by subst].
Qed.

(** C10. When [Insert(key, value)] finds [key] present it returns [false]
    and the whole object is as before: table, [size_], [buckets_].  This
    holds also when the load factor is exceeded, where a call of [Rehash]
    would have replaced the table by a larger one: [Rehash] is not reached
    on this path. *)
Theorem Insert_present_skips_growth s key value :
  wf s → fits s → present s key →
  Insert key value s = Done false s ∧
  (breach s → ∃ s', Rehash s = Done tt s' ∧ buckets_ s < buckets_ s' ∧ s' ≠ s).
Proof.
  intros Hwf Hf Hpr. split.
  - destruct (home_bucket s key (wf_shape s Hwf)) as [chain Hch].
    apply (Insert_present_eval s key value chain); try done; try apply Hwf.
    by apply has_key_spec, (present_home s key chain Hwf Hch).
  - intros Hb. destruct (Rehash_grow s (wf_room s Hwf Hf) Hb)
      as (s' & Hrun & _ & _ & _ & _ & Hlt & _).
    exists s'. split; [done|]. split; [done|]. intros ->. lia.
Qed.

(** C4. [Rehash] on a well-formed object whose load factor is exceeded
    returns and keeps the contents: a key is stored with a value afterwards
    exactly when it was before, every stored entry lies in bucket
    [hash(key) % buckets_] for the new bucket count, and [Find] answers for
    every key what the old contents say. *)
Theorem Rehash_preserves_contents s :
  wf s → fits s → breach s →
  ∃ s',
    Rehash s = Done tt s' ∧
    (∀ key v, stored s' key v ↔ stored s key v) ∧
    (∀ key, present s' key ↔ present s key) ∧
    (∀ key v, stored s key v →
       ∃ chain,
         table_ s' !! Z.to_nat (to_uint64 (hasher_ s key) mod buckets_ s') = Some chain ∧
         (key, v) ∈ chain) ∧
    (∀ key v, stored s key v → Find V_default key s' = Done (true, v) s') ∧
    (∀ key, ¬ present s key → Find V_default key s' = Done (false, V_default) s').
Proof.
  intros Hwf Hf Hb.
  destruct (Rehash_grow s (wf_room s Hwf Hf) Hb)
    as (s' & Hrun & _ & _ & Hh & _ & _ & _ & _ & Hperm).
  pose proof (Rehash_grow_wf s s' Hwf (wf_room s Hwf Hf) Hb Hrun) as Hwf'.
  assert (∀ key v, stored s' key v ↔ stored s key v) as Hst
    by (intros key v; unfold stored; by rewrite Hperm).
  assert (∀ key, present s' key ↔ present s key) as Hpr
    by (intros key; unfold present; by rewrite Hperm).
  exists s'. split; [done|]. split; [done|]. split; [done|]. split; [|split].
  - intros key v Hv. destruct (home_bucket s' key (wf_shape s' Hwf')) as [chain Hch].
    exists chain. unfold home, bucket_for in Hch. rewrite Hh in Hch. split; [done|].
    apply (stored_home s' key v chain Hwf'); [|by apply Hst].
    unfold home, bucket_for. by rewrite Hh.
  - intros key v Hv. apply Find_stored; [done|]. by apply Hst.
  - intros key Hnp. apply Find_absent; [done|]. by rewrite Hpr.
Qed.

(** C5. [Rehash] with counters in range.  When the load factor is exceeded,
    the bucket count it installs is the smallest multiple of the partition
    count that is at least [size_], it is the length of the new table, and
    it is larger than the bucket count before.  When the load factor is not
    exceeded, the object is left as it was.  The test of the source is
    [ceil(size_ / buckets_) > kLoadFactor]. *)
Theorem Rehash_bucket_count s :
  room s →
  (breach s ↔ kLoadFactor < ceil_div (size_ s) (buckets_ s)) ∧
  (breach s →
   ∃ s',
     Rehash s = Done tt s' ∧
     smallest_multiple_geq (mutex_size s) (size_ s) (buckets_ s') ∧
     buckets_ s' = Z.of_nat (length (table_ s')) ∧
     buckets_ s <= buckets_ s' ∧
     mutex_size s' = mutex_size s ∧ size_ s' = size_ s) ∧
  (¬ breach s → Rehash s = Done tt s).
Proof.
  intros Hr. split; [|split].
  - unfold breach, exceeded, ceil_div. rewrite (room_no_wrap s Hr). apply Z.ltb_lt.
  - intros Hb. destruct (Rehash_grow s Hr Hb)
      as (s' & Hrun & Hm & Hsz & _ & Hsm & Hlt & Hlen & _).
    exists s'. repeat split; try done; try apply Hsm. lia.
  - intros Hn. apply Rehash_idle; [|done]. destruct Hr. lia.
Qed.

(** C6. In every state reached from a constructor by a sequence of completed
    calls, [size_] is the sum of the chain lengths of all buckets, and
    [Size()] returns that sum. *)
Theorem reachable_size_exact s :
  reachable V_default s →
  size_ s = chain_length_sum s ∧ Size s = Done (chain_length_sum s) s.
Proof.
  intros (e & t & h & s0 & _ & _ & Hnew & Hf & Hreach).
  destruct (reachable_from_counted s0 s (new_counted e t h s0 Hnew) Hf Hreach)
    as [Hc _].
  assert (size_ s = chain_length_sum s) as Heq
    by (rewrite chain_length_sum_entries; apply Hc).
  split; [done|]. unfold Size, get. by rewrite Heq.
Qed.

(** C7. [Erase(key)] on a well-formed object.  When [key] is present the
    call returns [true], exactly one entry, the one of [key], is gone,
    [size_] is one less, and [Find(key)] on the state left returns empty.
    When [key] is absent the call returns [false] and leaves the object as it
    was.  In both cases [buckets_] and the table's length are as before. *)
Theorem Erase_spec s key :
  wf s → fits s →
  (present s key →
   ∃ v s',
     stored s key v ∧
     Erase key s = Done true s' ∧
     entries s ≡ₚ (key, v) :: entries s' ∧
     size_ s' = size_ s - 1 ∧
     ¬ present s' key ∧
     Find V_default key s' = Done (false, V_default) s' ∧
     buckets_ s' = buckets_ s ∧ length (table_ s') = length (table_ s)) ∧
  (¬ present s key → Erase key s = Done false s) ∧
  (∀ r s', Erase key s = Done r s' →
     (r = true ↔ present s key) ∧ buckets_ s' = buckets_ s).
Proof.
  intros Hwf Hf.
  assert (present s key →
          ∃ v, stored s key v ∧ Erase key s = Done true (erased key s) ∧
               entries s ≡ₚ (key, v) :: entries (erased key s) ∧
               ¬ present (erased key s) key ∧
               Find V_default key (erased key s)
               = Done (false, V_default) (erased key s)) as Hpresent.
  { intros Hpr. destruct (Erase_present s key Hwf Hf Hpr)
      as (v & Hst & Hrun & Hwf' & Hnp & Hperm).
    exists v. repeat split; try done. by apply Find_absent. }
  split; [|split].
  - intros Hpr. destruct (Hpresent Hpr) as (v & Hst & Hrun & Hperm & Hnp & Hfind).
    exists v, (erased key s). repeat split; try done.
    unfold erased. simpl. by rewrite length_insert.
  - by apply Erase_absent.
  - intros r s' Hrun. destruct (present_dec s key) as [Hpr|Hnp].
    + destruct (Hpresent Hpr) as (v & _ & Hrun' & _).
      rewrite Hrun in Hrun'. injection Hrun' as -> ->. by split.
    + rewrite (Erase_absent s key Hwf Hnp) in Hrun. injection Hrun as <- <-.
      split; [|done]. split; [done | by intros ?].
Qed.

(** C8. On a well-formed object, [Find(key)] returns [true] and the stored
    value when [key] is present and [false] with an empty value when it is
    absent; [At(key)] returns the stored value when [key] is present and
    throws [out_of_range] when it is absent, and it throws only then.  Both
    leave the object as it was. *)
Theorem Find_At_spec s key :
  wf s →
  (∀ v, stored s key v →
     Find V_default key s = Done (true, v) s ∧ At key s = Done v s) ∧
  (¬ present s key →
     Find V_default key s = Done (false, V_default) s ∧
     At key s = Throw out_of_range s) ∧
  (∀ e s', At key s = Throw e s' → e = out_of_range ∧ ¬ present s key) ∧
  (∀ r s', Find V_default key s = Done r s' → s' = s) ∧
  (∀ v s', At key s = Done v s' → s' = s) ∧
  (∀ e s', At key s = Throw e s' → s' = s).
Proof.
  intros Hwf. split; [|split; [|split; [|split; [|split]]]].
  - intros v Hst. split; [by apply Find_stored | by apply At_stored].
  - intros Hnp. split; [by apply Find_absent | by apply At_absent].
  - intros e s' Hrun. pose proof (At_cases s key) as Hc. rewrite Hrun in Hc.
    split; [apply Hc|]. intros (v & Hst)%present_stored.
    by rewrite (At_stored s key v Hwf Hst) in Hrun.
  - apply Find_reads.
  - apply At_reads.
  - apply At_reads.
Qed.

(** C9. [Clear()] returns on every object; afterwards every chain is empty
    and [size_] is zero, while [buckets_], the table's length and the number
    of mutexes are as before; and when the bucket count was a positive
    multiple of the partition count, then for every key [Find] returns empty
    and [At] throws [out_of_range]. *)
Theorem Clear_spec s :
  ∃ s',
    Clear s = Done tt s' ∧
    Forall (λ chain, chain = []) (table_ s') ∧
    size_ s' = 0 ∧ chain_length_sum s' = 0 ∧
    buckets_ s' = buckets_ s ∧ length (table_ s') = length (table_ s) ∧
    mutex_size s' = mutex_size s ∧
    (shape s → ∀ key,
       Find V_default key s' = Done (false, V_default) s' ∧
       At key s' = Throw out_of_range s').
Proof.
  exists (cleared s). split; [apply Clear_eval|]. split; [|split; [|split]].
  - unfold cleared. simpl. induction (table_ s); simpl; auto.
  - done.
  - by rewrite chain_length_sum_entries, cleared_entries.
  - split; [done|]. split; [unfold cleared; simpl; by rewrite length_map|].
    split; [done|]. intros Hs key.
    assert (¬ present (cleared s) key) as Hnp.
    { unfold present. rewrite cleared_entries. apply not_elem_of_nil. }
    split; [by apply Find_absent, Hnp; apply cleared_wf
           | by apply At_absent, Hnp; apply cleared_wf].
Qed.

End Facts.

(** * The claims on concrete objects *)

Ltac by_computation :=
  unfold stored, present, entries; apply (bool_decide_unpack _); vm_compute; exact I.

(** C1. The constructor called with an expected size of zero,
    [ConcurrentHashMap(0)], returns an object with eight mutexes and no
    bucket: the bucket count is not a positive multiple of the partition
    count, and [Insert] and [Erase] on it divide by zero. *)
Theorem new_zero_expected_size_no_bucket :
  ∃ s : ConcurrentHashMap Z Z,
    ConcurrentHashMap_sized 0 Sample.identity_hash = Some s ∧
    reachable 0 s ∧
    mutex_size s = 8 ∧ buckets_ s = 0 ∧ table_ s = [] ∧
    ¬ (0 < buckets_ s ∧ (mutex_size s | buckets_ s)) ∧
    (∀ key value, Insert key value s = Undefined) ∧
    (∀ key, Erase key s = Undefined).
Proof.
  eexists. split; [vm_compute; reflexivity|].
  split.
  { exists 0, 8, Sample.identity_hash. eexists.
    split; [unfold is_int, INT_MIN, INT_MAX; lia|].
    split; [unfold is_int, INT_MIN, INT_MAX; lia|].
    split; [vm_compute; reflexivity|].
    split; [unfold fits; simpl; lia | apply reachable_here]. }
  split; [done|]. split; [done|]. split; [done|].
  split; [simpl; lia|].
  split; [intros key value; by apply Insert_no_buckets
         | intros key; by apply Erase_no_buckets].
Qed.

(** C2. The constructor called with an expected size of -5 and nine threads
    returns an object with nine mutexes and two buckets.  On it a key of hash
    2 locks mutex 2 and works on bucket 0, whose owner is partition 0; a key
    of hash 0 locks mutex 0 and works on the same bucket. *)
Theorem lock_index_misses_owner_on_negative_size :
  ∃ s s' : ConcurrentHashMap Z Z,
    ConcurrentHashMap_new (-5) 9 Sample.identity_hash = Some s ∧
    reachable 0 s ∧
    mutex_size s = 9 ∧ buckets_ s = 2 ∧
    hash_of 2 s = Done 2 s ∧
    lock_index 2 s = Done 2 s ∧ bucket_index 2 s = Done 0 s ∧ owner s 0 = 0 ∧
    Insert 2 20 s = Done true s' ∧ table_ s' = [[(2, 20)]; []] ∧
    hash_of 0 s = Done 0 s ∧
    lock_index 0 s = Done 0 s ∧ bucket_index 0 s = Done 0 s.
Proof.
  eexists. eexists. split; [vm_compute; reflexivity|].
  split.
  { exists (-5), 9, Sample.identity_hash. eexists.
    split; [unfold is_int, INT_MIN, INT_MAX; lia|].
    split; [unfold is_int, INT_MIN, INT_MAX; lia|].
    split; [vm_compute; reflexivity|].
    split; [unfold fits; simpl; lia | apply reachable_here]. }
  repeat split; vm_compute; reflexivity.
Qed.

(** [Insert] of the present key 3 and of the absent key 19 into a map of
    three entries. *)
Lemma Insert_first_writer_wins_witness :
  wf Sample.three ∧ fits Sample.three ∧
  Insert 3 99 Sample.three = Done false Sample.three ∧
  Find 0 3 Sample.three = Done (true, 30) Sample.three ∧
  ∃ s', Insert 19 190 Sample.three = Done true s' ∧ size_ s' = 4 ∧
        Find 0 19 s' = Done (true, 190) s'.
Proof.
  assert (wf Sample.three) as Hwf by (apply wf_check_sound; vm_compute; reflexivity).
  assert (fits Sample.three) as Hf by (unfold fits; simpl; lia).
  assert (stored Sample.three 3 30) as Hst by by_computation.
  assert (¬ present Sample.three 19) as Hnp by by_computation.
  destruct (Insert_first_writer_wins 0 Sample.three 3 99 Hwf Hf) as [Hpresent _].
  destruct (Insert_first_writer_wins 0 Sample.three 19 190 Hwf Hf) as [_ Habsent].
  destruct (Hpresent 30 Hst) as [Hrun Hfind].
  destruct (Habsent Hnp) as (chain & s' & _ & _ & _ & _ & Hrun' & _ & Hsz & Hfind' & _).
  split; [exact Hwf|]. split; [exact Hf|]. split; [exact Hrun|].
  split; [exact Hfind|]. exists s'. split; [exact Hrun'|].
  split; [exact Hsz | exact Hfind'].
Defined.

(** [Insert] of a present key into a map whose load factor is exceeded. *)
Lemma Insert_present_skips_growth_witness :
  wf Sample.crowded ∧ fits Sample.crowded ∧ present Sample.crowded 2 ∧
  breach Sample.crowded ∧
  Insert 2 99 Sample.crowded = Done false Sample.crowded.
Proof.
  assert (wf Sample.crowded) as Hwf by (apply wf_check_sound; vm_compute; reflexivity).
  assert (fits Sample.crowded) as Hf by (unfold fits; simpl; lia).
  assert (present Sample.crowded 2) as Hpr by by_computation.
  split; [exact Hwf|]. split; [exact Hf|]. split; [exact Hpr|].
  split; [reflexivity|].
  exact (proj1 (Insert_present_skips_growth Sample.crowded 2 99 Hwf Hf Hpr)).
Defined.

(** [Rehash] of twenty-five entries in eight buckets. *)
Lemma Rehash_preserves_contents_witness :
  wf Sample.loaded ∧ fits Sample.loaded ∧ breach Sample.loaded ∧
  ∃ s', Rehash Sample.loaded = Done tt s' ∧
        Find 0 17 s' = Done (true, 170) s' ∧
        Find 0 25 s' = Done (false, 0) s'.
Proof.
  assert (wf Sample.loaded) as Hwf by (apply wf_check_sound; vm_compute; reflexivity).
  assert (fits Sample.loaded) as Hf by (unfold fits; simpl; lia).
  assert (breach Sample.loaded) as Hb by reflexivity.
  assert (stored Sample.loaded 17 170) as Hst by by_computation.
  assert (¬ present Sample.loaded 25) as Hnp by by_computation.
  destruct (Rehash_preserves_contents 0 Sample.loaded Hwf Hf Hb)
    as (s' & Hrun & _ & _ & _ & Hfound & Hmissing).
  split; [exact Hwf|]. split; [exact Hf|]. split; [exact Hb|].
  exists s'. split; [exact Hrun|]. split; [exact (Hfound 17 170 Hst) | exact (Hmissing 25 Hnp)].
Defined.

(** [Rehash] of twenty-five entries in eight buckets installs a multiple of
    eight. *)
Lemma Rehash_bucket_count_witness :
  room Sample.loaded ∧ breach Sample.loaded ∧
  ∃ s', Rehash Sample.loaded = Done tt s' ∧
        smallest_multiple_geq 8 25 (buckets_ s') ∧ 8 <= buckets_ s'.
Proof.
  assert (room Sample.loaded) as Hr by (split; simpl; lia).
  assert (breach Sample.loaded) as Hb by reflexivity.
  destruct (Rehash_bucket_count Sample.loaded Hr) as (_ & Hgrow & _).
  destruct (Hgrow Hb) as (s' & Hrun & Hsm & _ & Hle & _).
  split; [exact Hr|]. split; [exact Hb|].
  exists s'. split; [exact Hrun|]. split; [exact Hsm | exact Hle].
Defined.

(** The default constructor followed by [Insert(3, 30)]. *)
Lemma reachable_size_exact_witness :
  reachable 0 Sample.one ∧
  size_ Sample.one = chain_length_sum Sample.one ∧
  Size Sample.one = Done (chain_length_sum Sample.one) Sample.one.
Proof.
  assert (reachable 0 Sample.one) as Hreach.
  { exists (-1), 8, Sample.identity_hash, Sample.fresh.
    split; [unfold is_int, INT_MIN, INT_MAX; lia|].
    split; [unfold is_int, INT_MIN, INT_MAX; lia|].
    split; [vm_compute; reflexivity|].
    split; [unfold fits; simpl; lia|].
    apply (reachable_call 0 Sample.fresh Sample.fresh (CallInsert 3 30) Sample.one).
    - apply reachable_here.
    - vm_compute. reflexivity.
    - unfold fits. simpl. lia. }
  split; [exact Hreach|]. exact (reachable_size_exact 0 Sample.one Hreach).
Defined.

(** [Erase] of the present key 3. *)
Lemma Erase_spec_witness :
  wf Sample.three ∧ fits Sample.three ∧ present Sample.three 3 ∧
  ∃ v s', Erase 3 Sample.three = Done true s' ∧ stored Sample.three 3 v ∧
          size_ s' = 2 ∧ Find 0 3 s' = Done (false, 0) s' ∧ buckets_ s' = 8.
Proof.
  assert (wf Sample.three) as Hwf by (apply wf_check_sound; vm_compute; reflexivity).
  assert (fits Sample.three) as Hf by (unfold fits; simpl; lia).
  assert (present Sample.three 3) as Hpr by by_computation.
  destruct (Erase_spec 0 Sample.three 3 Hwf Hf) as (Hpresent & _ & _).
  destruct (Hpresent Hpr) as (v & s' & Hst & Hrun & _ & Hsz & _ & Hfind & Hb & _).
  split; [exact Hwf|]. split; [exact Hf|]. split; [exact Hpr|].
  exists v, s'. split; [exact Hrun|]. split; [exact Hst|]. split; [exact Hsz|].
  split; [exact Hfind | exact Hb].
Defined.

(** [Find] and [At] on the present key 11 and the absent key 12. *)
Lemma Find_At_spec_witness :
  wf Sample.three ∧ stored Sample.three 11 110 ∧ ¬ present Sample.three 12 ∧
  Find 0 11 Sample.three = Done (true, 110) Sample.three ∧
  At 11 Sample.three = Done 110 Sample.three ∧
  Find 0 12 Sample.three = Done (false, 0) Sample.three ∧
  At 12 Sample.three = Throw out_of_range Sample.three.
Proof.
  assert (wf Sample.three) as Hwf by (apply wf_check_sound; vm_compute; reflexivity).
  assert (stored Sample.three 11 110) as Hst by by_computation.
  assert (¬ present Sample.three 12) as Hnp by by_computation.
  destruct (Find_At_spec 0 Sample.three 11 Hwf) as (Hpresent & _).
  destruct (Find_At_spec 0 Sample.three 12 Hwf) as (_ & Habsent & _).
  destruct (Hpresent 110 Hst) as [Hfind Hat].
  destruct (Habsent Hnp) as [Hfind' Hat'].
  split; [exact Hwf|]. split; [exact Hst|]. split; [exact Hnp|].
  split; [exact Hfind|]. split; [exact Hat|]. split; [exact Hfind' | exact Hat'].
Defined.

(** [Clear] of a map of three entries. *)
Lemma Clear_spec_witness :
  shape Sample.three ∧
  ∃ s', Clear Sample.three = Done tt s' ∧ size_ s' = 0 ∧ buckets_ s' = 8 ∧
        Find 0 3 s' = Done (false, 0) s' ∧ At 3 s' = Throw out_of_range s'.
Proof.
  assert (shape Sample.three) as Hs
    by (apply wf_shape, wf_check_sound; vm_compute; reflexivity).
  destruct (Clear_spec 0 Sample.three)
    as (s' & Hrun & _ & Hsz & _ & Hb & _ & _ & Hempty).
  destruct (Hempty Hs 3) as [Hfind Hat].
  split; [exact Hs|]. exists s'. split; [exact Hrun|]. split; [exact Hsz|].
  split; [exact Hb|]. split; [exact Hfind | exact Hat].
Defined.

(** * Further properties of the methods *)

Section More.

Context {K V : Type} `{EqDecision K}.
Variable V_default : V.

Implicit Types (s : ConcurrentHashMap K V) (key : K) (chain : list (K * V)).

(** ** Helpers *)

Lemma stored_unique s key v v' :
  wf s → stored s key v → stored s key v' → v = v'.
Proof.
  intros Hwf Hv Hv'. destruct (home_bucket s key (wf_shape s Hwf)) as [chain Hch].
  apply (first_value_home s key v chain Hwf Hch) in Hv.
  apply (first_value_home s key v' chain Hwf Hch) in Hv'. congruence.
Qed.

(** Two well-formed objects with the same entries answer [Find] alike. *)
Lemma Find_same_entries s s' key x :
  wf s → wf s' → entries s' ≡ₚ entries s →
  Find V_default key s = Done x s → Find V_default key s' = Done x s'.
Proof.
  intros Hwf Hwf' Hperm Hfind. destruct (present_dec s key) as [Hpr|Hnp].
  - apply present_stored in Hpr as [v Hv].
    rewrite (Find_stored V_default s key v Hwf Hv) in Hfind. injection Hfind as <-.
    apply Find_stored; [done|]. unfold stored. by rewrite Hperm.
  - rewrite (Find_absent V_default s key Hwf Hnp) in Hfind. injection Hfind as <-.
    apply Find_absent; [done|]. unfold present. by rewrite Hperm.
Qed.

Lemma Insert_present s key value : wf s → present s key → Insert key value s = Done false s.
Proof.
  intros Hwf Hpr. destruct (home_bucket s key (wf_shape s Hwf)) as [chain Hch].
  apply (Insert_present_eval s key value chain); try done; try apply Hwf.
  by apply has_key_spec, (present_home s key chain Hwf Hch).
Qed.

(** [Insert] of an absent key: the pushed state when the load factor is not
    exceeded in it, and what [Rehash] makes of it otherwise. *)
Lemma Insert_absent_split s key value :
  wf s → fits s → ¬ present s key →
  ∃ s',
    Insert key value s = Done true s' ∧ wf s' ∧
    entries s' ≡ₚ entries s ++ [(key, value)] ∧
    ((¬ breach (pushed key value s) ∧ s' = pushed key value s) ∨
     (breach (pushed key value s) ∧ Rehash (pushed key value s) = Done tt s')).
Proof.
  intros Hwf Hf Hnp. destruct (home_bucket s key (wf_shape s Hwf)) as [chain Hc].
  pose proof (wf_shape s Hwf) as [Hm Hb Hp].
  pose proof (wf_room s Hwf Hf) as [_ _ Hsz Hsum].
  assert (has_key key chain = false) as Hk.
  { apply not_true_is_false. rewrite has_key_spec.
    by rewrite <- (present_home s key chain Hwf Hc). }
  rewrite (Insert_absent_eval s key value chain) by (done || lia).
  pose proof (pushed_wf s key value Hwf Hnp) as Hwf1.
  pose proof (pushed_entries s key value chain Hc) as Hent.
  unfold breach. destruct (exceeded (pushed key value s)) eqn:Hex.
  - pose proof (pushed_room s key value (wf_counted s Hwf) Hf Hp) as Hroom.
    destruct (Rehash_grow (pushed key value s) Hroom Hex)
      as (s' & Hrun & _ & _ & _ & _ & _ & _ & _ & Hperm).
    exists s'. rewrite Hrun. split; [done|].
    split; [by apply (Rehash_grow_wf (pushed key value s))|].
    split; [by rewrite Hperm | by right].
  - exists (pushed key value s). split; [done|]. split; [done|].
    split; [done | by left].
Qed.

(** [Erase] of a present key needs of [size_] only that it is in range. *)
Lemma Erase_present_in_range s key :
  wf s → size_ s <= 2 ^ 64 → present s key →
  ∃ v,
    stored s key v ∧ Erase key s = Done true (erased key s) ∧
    wf (erased key s) ∧ ¬ present (erased key s) key ∧
    entries s ≡ₚ (key, v) :: entries (erased key s).
Proof.
  intros Hwf Hle Hpr. destruct (home_bucket s key (wf_shape s Hwf)) as [chain Hc].
  pose proof (wf_shape s Hwf) as [Hm Hb Hp].
  pose proof (proj1 (present_home s key chain Hwf Hc) Hpr) as Hin.
  destruct (first_index_lookup key chain Hin) as (v & Hel & Hv).
  pose proof (erased_entries s key chain (key, v) Hc Hel) as Hperm.
  destruct (erased_wf s key chain v Hc Hel Hwf) as [Hwf' Hnp].
  exists v. split; [by apply (first_value_home s key v chain)|].
  split; [|done].
  rewrite (Erase_eval s key chain); try done.
  - destruct (Nat.eqb_spec (first_index key chain) (length chain)) as [Heq|]; [|done].
    by apply first_index_absent in Heq.
  - pose proof (wf_size s Hwf) as Hlen. rewrite Hperm in Hlen. simpl in Hlen. lia.
Qed.

Lemma erased_fits s key : fits s → present s key → wf s → fits (erased key s).
Proof.
  intros Hf Hpr Hwf. pose proof (wf_room s Hwf Hf) as [Hm Hb Hsz Hsum].
  destruct (Erase_present_in_range s key Hwf ltac:(lia) Hpr) as (v & _ & _ & _ & _ & Hperm).
  unfold fits in *. rewrite Hperm in Hf. simpl in Hf.
  assert (length (table_ (erased key s)) = length (table_ s)) as ->
    by (unfold erased; simpl; by rewrite length_insert).
  change (mutex_size (erased key s)) with (mutex_size s). lia.
Qed.

Lemma Find_no_buckets s key : buckets_ s = 0 → Find V_default key s = Undefined.
Proof.
  intros Hb. unfold Find, bind at 1, hash_of, bind at 1, get, ret. simpl.
  unfold bind at 1.
  destruct (lock_index_cases s (to_uint64 (hasher_ s key))) as [->|[m ->]]; [done|].
  unfold bind at 1. unfold bucket_index, bind at 1, get. by rewrite Hb.
Qed.

Lemma At_no_buckets s key : buckets_ s = 0 → At key s = Undefined.
Proof.
  intros Hb. unfold At, bind at 1, hash_of, bind at 1, get, ret. simpl.
  unfold bind at 1.
  destruct (lock_index_cases s (to_uint64 (hasher_ s key))) as [->|[m ->]]; [done|].
  unfold bind at 1. unfold bucket_index, bind at 1, get. by rewrite Hb.
Qed.

(** What the constructor returns is well formed, or has no bucket at all. *)
Lemma new_wf_or_empty expected_size expected_threads_count hasher
    (s0 : ConcurrentHashMap K V) :
  ConcurrentHashMap_new expected_size expected_threads_count hasher = Some s0 →
  mutex_size s0 = Z.max 8 expected_threads_count ∧ size_ s0 = 0 ∧
  buckets_ s0 = Z.of_nat (length (table_ s0)) ∧
  (wf s0 ∨ (buckets_ s0 = 0 ∧ table_ s0 = [] ∧ size_ s0 = 0)).
Proof.
  unfold ConcurrentHashMap_new. destruct (expected_size =? kUndefinedSize).
  - intros [= <-]. repeat split. left. apply replicate_nil_wf; lia.
  - destruct (INT_MAX <? expected_size + kLoadFactor); [done|].
    set (size := if _ =? 0 then _ else _).
    intros [= <-]. repeat split. destruct (decide (0 < size)) as [Hpos|Hneg].
    + left. apply replicate_nil_wf; lia.
    + right. simpl. assert (Z.to_nat size = 0%nat) as -> by lia. done.
Qed.

Lemma reachable_from_empty (s0 s : ConcurrentHashMap K V) :
  buckets_ s0 = 0 → table_ s0 = [] → size_ s0 = 0 →
  reachable_from V_default s0 s → s = s0.
Proof.
  intros Hb Ht Hsz Hreach.
  induction Hreach as [|s c s' _ IH Hrun _]; [done|]. subst s.
  by apply (run_no_buckets V_default s0 c s').
Qed.

(** ** Construction *)

(** X1. The constructor on the sentinel or on a positive expected size
    (whose rounding does not overflow) returns an empty, well-formed object:
    [max(8, expected_threads_count)] mutexes, no entry, [size_] zero, and a
    bucket count that is the partition count for the sentinel and otherwise
    the smallest multiple of the partition count that is at least
    [ceil(expected_size / 3)]; [Find] finds no key in it. *)
Theorem constructor_establishes_invariant expected_size expected_threads_count hasher :
  sized_input expected_size → is_int expected_threads_count →
  ∃ s0 : ConcurrentHashMap K V,
    ConcurrentHashMap_new expected_size expected_threads_count hasher = Some s0 ∧
    wf s0 ∧ striped s0 ∧ fits s0 ∧
    entries s0 = [] ∧ Size s0 = Done 0 s0 ∧
    mutex_size s0 = Z.max 8 expected_threads_count ∧
    (expected_size = kUndefinedSize → buckets_ s0 = mutex_size s0) ∧
    (expected_size ≠ kUndefinedSize →
     smallest_multiple_geq (mutex_size s0)
       (ceil_div expected_size kLoadFactor) (buckets_ s0)) ∧
    (∀ key, Find V_default key s0 = Done (false, V_default) s0).
Proof.
  intros Hsz Hint.
  destruct (new_sized (V := V) expected_size expected_threads_count hasher Hsz Hint)
    as (s0 & Hnew & Hwf & Hf & Hsize & Hm & Hunknown & Hknown).
  assert (entries s0 = []) as Hent.
  { pose proof (wf_size s0 Hwf) as Hlen. rewrite Hsize in Hlen.
    destruct (entries s0); [done | simpl in Hlen; lia]. }
  exists s0. split; [done|]. split; [done|]. split.
  { unfold striped. destruct (decide (expected_size = kUndefinedSize)) as [He|He].
    - by rewrite (Hunknown He).
    - apply (Hknown He). }
  split; [done|]. split; [done|].
  split; [unfold Size, get; by rewrite Hsize|].
  split; [done|]. split; [done|]. split; [done|].
  intros key. apply Find_absent; [done|]. unfold present. rewrite Hent.
  apply not_elem_of_nil.
Qed.

(** X2. Whatever the constructor was given, the number of mutexes is
    [max(8, expected_threads_count)], at least eight, and no sequence of
    completed calls changes it; the bucket count is the table's length and
    never goes below the one of construction. *)
Theorem partition_count_fixed expected_size expected_threads_count hasher
    (s0 s : ConcurrentHashMap K V) :
  ConcurrentHashMap_new expected_size expected_threads_count hasher = Some s0 →
  fits s0 → reachable_from V_default s0 s →
  mutex_size s = Z.max 8 expected_threads_count ∧ 8 <= mutex_size s ∧
  buckets_ s0 <= buckets_ s ∧ buckets_ s = Z.of_nat (length (table_ s)).
Proof.
  intros Hnew Hf Hreach.
  destruct (new_wf_or_empty _ _ _ s0 Hnew) as (Hm & _ & Hlen & [Hwf|(Hb & Ht & Hsz)]).
  - assert (mutex_size s = mutex_size s0 ∧ buckets_ s0 <= buckets_ s) as [Hms Hle].
    { induction Hreach as [|s c s' Hreach [IHm IHb] Hrun _]; [split; (done || lia)|].
      destruct (reachable_from_wf V_default s0 s Hwf Hf Hreach) as [Hwfs Hfs].
      destruct (run_frame V_default s c s' Hwfs Hfs Hrun) as (Hm' & _ & Hle). lia. }
    destruct (reachable_from_wf V_default s0 s Hwf Hf Hreach) as [Hwfs _].
    split; [lia|]. split; [lia|]. split; [done|]. apply Hwfs.
  - rewrite (reachable_from_empty s0 s Hb Ht Hsz Hreach).
    split; [done|]. split; [lia|]. split; [lia | done].
Qed.

(** ** The load factor *)

Lemma run_within s c s' :
  wf s → fits s → size_ s <= kLoadFactor * buckets_ s →
  run V_default c s = Done tt s' → size_ s' <= kLoadFactor * buckets_ s'.
Proof.
  intros Hwf Hf Hin Hrun. pose proof (wf_shape s Hwf) as [Hm Hb Hp].
  assert (∀ s1, room s1 → breach s1 → Rehash s1 = Done tt s' →
            size_ s' <= kLoadFactor * buckets_ s') as Hgrow.
  { intros s1 Hr Hbr Hre.
    destruct (Rehash_grow s1 Hr Hbr) as (s2 & Heq & _ & Hsz & _ & Hsm & _).
    rewrite Hre in Heq. injection Heq as <-. destruct Hsm as (_ & Hge & _).
    unfold kLoadFactor. destruct Hr. lia. }
  destruct c as [key value|key| |key|key| |]; simpl in Hrun; unfold bind in Hrun.
  - destruct (present_dec s key) as [Hpr|Hnp].
    + rewrite (Insert_present s key value Hwf Hpr) in Hrun. by injection Hrun as <-.
    + destruct (Insert_absent_split s key value Hwf Hf Hnp)
        as (s1 & Heq & _ & _ & Hcase).
      rewrite Heq in Hrun. injection Hrun as <-.
      pose proof (pushed_room s key value (wf_counted s Hwf) Hf Hp) as Hroom.
      destruct Hcase as [[Hnb ->]|[Hbr Hre]].
      * rewrite (breach_iff _ Hroom) in Hnb. lia.
      * by apply (Hgrow (pushed key value s)).
  - destruct (present_dec s key) as [Hpr|Hnp].
    + destruct (Erase_present s key Hwf Hf Hpr) as (v & _ & Heq & _).
      rewrite Heq in Hrun. injection Hrun as <-. simpl. lia.
    + rewrite (Erase_absent s key Hwf Hnp) in Hrun. by injection Hrun as <-.
  - rewrite Clear_eval in Hrun. injection Hrun as <-. simpl. unfold kLoadFactor. lia.
  - destruct (Find V_default key s) as [r s1| |] eqn:Hf1; try done.
    injection Hrun as <-. by rewrite (Find_reads V_default s key r s1 Hf1).
  - destruct (At key s) as [r s1| |] eqn:Hf1; try done.
    injection Hrun as <-. by rewrite (proj1 (At_reads s key) r s1 Hf1).
  - unfold Size, get in Hrun. by injection Hrun as <-.
  - destruct (exceeded s) eqn:Hex.
    + by apply (Hgrow s); [apply wf_room| |].
    + rewrite Rehash_idle in Hrun; [by injection Hrun as <- | lia |].
      unfold breach. by rewrite Hex.
Qed.

(** X3. In every state reached from a constructor by completed calls, [size_]
    is at most [kLoadFactor] times the bucket count: between two calls the
    average chain length never exceeds three. *)
Theorem load_factor_bounded s :
  reachable V_default s → size_ s <= kLoadFactor * buckets_ s.
Proof.
  intros (e & t & h & s0 & _ & _ & Hnew & Hf & Hreach).
  destruct (new_wf_or_empty _ _ _ s0 Hnew) as (_ & Hsz0 & Hlen & [Hwf|(Hb & Ht & Hsz)]).
  - induction Hreach as [|s c s' Hreach IH Hrun _].
    + rewrite Hsz0. unfold kLoadFactor. lia.
    + destruct (reachable_from_wf V_default s0 s Hwf Hf Hreach) as [Hwfs Hfs].
      by apply (run_within s c s').
  - rewrite (reachable_from_empty s0 s Hb Ht Hsz Hreach), Hsz, Hb. done.
Qed.

(** X4. On a well-formed object no call has undefined behaviour: no
    division by zero, no index outside the table.  The only call that throws
    is [At] on an absent key, with [out_of_range] and the object as it was. *)
Theorem no_undefined_behaviour s (c : call) :
  wf s → fits s →
  run V_default c s ≠ Undefined ∧
  ∀ e s', run V_default c s = Throw e s' →
    ∃ key, c = CallAt key ∧ ¬ present s key ∧ e = out_of_range ∧ s' = s.
Proof.
  intros Hwf Hf. pose proof (wf_shape s Hwf) as [Hm Hb Hp].
  destruct c as [key value|key| |key|key| |]; simpl; unfold bind.
  - destruct (present_dec s key) as [Hpr|Hnp].
    + by rewrite (Insert_present s key value Hwf Hpr).
    + destruct (Insert_absent_split s key value Hwf Hf Hnp) as (s1 & -> & _). done.
  - destruct (present_dec s key) as [Hpr|Hnp].
    + destruct (Erase_present s key Hwf Hf Hpr) as (v & _ & -> & _). done.
    + by rewrite (Erase_absent s key Hwf Hnp).
  - by rewrite Clear_eval.
  - destruct (present_dec s key) as [Hpr|Hnp].
    + apply present_stored in Hpr as [v Hv].
      by rewrite (Find_stored V_default s key v Hwf Hv).
    + by rewrite (Find_absent V_default s key Hwf Hnp).
  - destruct (present_dec s key) as [Hpr|Hnp].
    + apply present_stored in Hpr as [v Hv]. by rewrite (At_stored s key v Hwf Hv).
    + rewrite (At_absent s key Hwf Hnp). split; [done|].
      intros e s' [= <- <-]. by exists key.
  - done.
  - destruct (exceeded s) eqn:Hex.
    + destruct (Rehash_grow s (wf_room s Hwf Hf) Hex) as (s1 & -> & _). done.
    + rewrite Rehash_idle; [done | lia |]. unfold breach. by rewrite Hex.
Qed.

(** X5. On an object without bucket, [Insert], [Erase], [Find], [At] and
    [Rehash] have no defined behaviour (they divide by [buckets_]), while
    [Clear] and [Size] return. *)
Theorem no_bucket_no_access s key value :
  buckets_ s = 0 →
  Insert key value s = Undefined ∧ Erase key s = Undefined ∧
  Find V_default key s = Undefined ∧ At key s = Undefined ∧
  Rehash s = Undefined ∧
  Clear s = Done tt (cleared s) ∧ Size s = Done (size_ s) s.
Proof.
  intros Hb. split; [by apply Insert_no_buckets|].
  split; [by apply Erase_no_buckets|]. split; [by apply Find_no_buckets|].
  split; [by apply At_no_buckets|]. split; [by apply Rehash_no_buckets|]. done.
Qed.

(** X6. [Insert] of an absent key into a well-formed object grows the table
    exactly when the new [size_] exceeds three times the bucket count.
    Below that the bucket count and every other bucket are as before; beyond
    it the bucket count becomes the smallest multiple of the partition count
    that is at least the new [size_]. *)
Theorem Insert_growth_threshold s key value :
  wf s → fits s → ¬ present s key →
  ∃ s',
    Insert key value s = Done true s' ∧
    (size_ s + 1 <= kLoadFactor * buckets_ s →
       s' = pushed key value s ∧ buckets_ s' = buckets_ s ∧
       ∀ i : nat, Z.of_nat i ≠ home s key → table_ s' !! i = table_ s !! i) ∧
    (kLoadFactor * buckets_ s < size_ s + 1 →
       smallest_multiple_geq (mutex_size s) (size_ s + 1) (buckets_ s') ∧
       buckets_ s < buckets_ s').
Proof.
  intros Hwf Hf Hnp. pose proof (wf_shape s Hwf) as [Hm Hb Hp].
  destruct (Insert_absent_split s key value Hwf Hf Hnp) as (s' & Hrun & _ & _ & Hcase).
  pose proof (pushed_room s key value (wf_counted s Hwf) Hf Hp) as Hroom.
  pose proof (breach_iff _ Hroom) as Hiff.
  change (size_ (pushed key value s)) with (size_ s + 1) in Hiff.
  change (buckets_ (pushed key value s)) with (buckets_ s) in Hiff.
  exists s'. split; [done|]. split.
  - intros Hle. destruct Hcase as [[_ ->]|[Hbr _]]; [|apply Hiff in Hbr; lia].
    split; [done|]. split; [done|]. intros i Hi. unfold pushed. simpl.
    apply list_lookup_insert_ne. pose proof (home_range s key Hp). lia.
  - intros Hlt. destruct Hcase as [[Hnb _]|[Hbr Hre]]; [by rewrite Hiff in Hnb|].
    destruct (Rehash_grow _ Hroom Hbr) as (s1 & Heq & _ & _ & _ & Hsm & Hgt & _).
    rewrite Hre in Heq. injection Heq as <-. by split.
Qed.

Lemma Rehash_grow_upper s s' :
  room s → breach s → Rehash s = Done tt s' →
  buckets_ s' < size_ s + mutex_size s ∧ mutex_size s' = mutex_size s.
Proof.
  intros Hr Hb Hrun.
  destruct (Rehash_grow s Hr Hb) as (s1 & Heq & Hm & _ & _ & Hsm & _).
  rewrite Hrun in Heq. injection Heq as <-. split; [|done].
  destruct Hr as [Hmp Hbp Hsp Hsum]. destruct Hsm as (_ & _ & Hmin).
  pose proof (Hmin (mutex_size s * ((size_ s + mutex_size s - 1) / mutex_size s))
                ltac:(by eexists; rewrite Z.mul_comm)) as Hle.
  pose proof (Z.mul_div_le (size_ s + mutex_size s - 1) (mutex_size s) Hmp).
  pose proof (Z.mul_succ_div_gt (size_ s + mutex_size s - 1) (mutex_size s) Hmp).
  lia.
Qed.

(** X7. What a growth leaves: with counters in range and the load factor
    exceeded, [Rehash] installs a bucket count between [size_] and
    [size_ + partition_count], more than three times the old one, so that
    the average chain length is at most one; and a second [Rehash] right
    after changes nothing. *)
Theorem Rehash_growth_effect s :
  room s → breach s →
  ∃ s',
    Rehash s = Done tt s' ∧
    size_ s <= buckets_ s' < size_ s + mutex_size s ∧
    kLoadFactor * buckets_ s < buckets_ s' ∧
    Rehash s' = Done tt s'.
Proof.
  intros Hr Hb. pose proof (proj1 (breach_iff s Hr) Hb) as Hlt.
  destruct (Rehash_grow s Hr Hb) as (s' & Hrun & Hm & Hsz & _ & Hsm & Hgt & _).
  destruct (Rehash_grow_upper s s' Hr Hb Hrun) as [Hup _].
  destruct Hr as [Hmp Hbp Hsp Hsum]. destruct Hsm as (Hdiv & Hge & Hmin).
  exists s'. split; [done|]. split; [lia|]. split; [lia|].
  apply Rehash_idle; [lia|]. unfold breach, exceeded. rewrite Hsz.
  apply not_true_iff_false, Z.ltb_ge.
  pose proof (to_size_t_range (size_ s + buckets_ s' - 1)) as Hrange.
  assert (to_size_t (size_ s + buckets_ s' - 1) <= size_ s + buckets_ s' - 1) as Hmod
    by (unfold to_size_t; apply Z.mod_le; lia).
  apply Z.lt_succ_r. apply Z.div_lt_upper_bound; [lia|]. unfold kLoadFactor. lia.
Qed.

(** ** Presence, as the four single-key methods see it *)

(** The four single-key methods start alike: hash, mutex index, bucket
    index, bucket. *)
Lemma prefix_located {A} (k : Z → list (K * V) → @M K V A) s key :
  bind (hash_of key) (λ hash,
    bind (lock_index hash) (λ _,
      bind (bucket_index hash) (λ idx, bind (bucket_at idx) (k idx)))) s
  = match located s key with
    | Some chain => k (home s key) chain s
    | None => Undefined
    end.
Proof.
  unfold located, bind at 1, hash_of, bind at 1, get, ret. simpl.
  unfold bind at 1, lock_index, bind at 1, get, umod.
  destruct (mutex_size s =? 0); [done|]. unfold ret.
  unfold bind at 1, bucket_index, bind at 1, get, umod.
  destruct (buckets_ s =? 0); [done|]. unfold ret.
  unfold bind, bucket_at. fold (bucket_for (hasher_ s) (buckets_ s) key).
  fold (home s key). by destruct (table_ s !! Z.to_nat (home s key)).
Qed.

Lemma Find_located s key :
  Find V_default key s =
  match located s key with
  | Some chain =>
      match first_value key chain with
      | Some v => Done (true, v) s
      | None => Done (false, V_default) s
      end
  | None => Undefined
  end.
Proof.
  unfold Find. rewrite prefix_located. cbv beta.
  destruct (located s key) as [chain|]; [|done]. by destruct (first_value key chain).
Qed.

Lemma At_located s key :
  At key s =
  match located s key with
  | Some chain =>
      match first_value key chain with
      | Some v => Done v s
      | None => Throw out_of_range s
      end
  | None => Undefined
  end.
Proof.
  unfold At. rewrite prefix_located. cbv beta.
  destruct (located s key) as [chain|]; [|done]. by destruct (first_value key chain).
Qed.

Lemma first_value_has_key key chain :
  has_key key chain = true ↔ ∃ v, first_value key chain = Some v.
Proof.
  rewrite has_key_spec. destruct (first_value key chain) as [v|] eqn:Hv.
  - split; [by exists v|]. intros _.
    apply list_elem_of_fmap. exists (key, v). split; [done|]. by apply first_value_Some.
  - apply first_value_None in Hv. split; [done | by intros [? ?]].
Qed.

(** X8. On every object the four single-key methods agree on whether a key
    is present.  [At] returns [v] exactly when [Find] returns [(true, v)],
    throws exactly when [Find] returns [(false, V{})], and is undefined
    exactly when [Find] is.  When [Erase] returns, its result is the flag
    [Find] gives beforehand; when [Insert] returns, its result is the
    negation of that flag. *)
Theorem presence_agrees s key :
  (∀ v, Find V_default key s = Done (true, v) s ↔ At key s = Done v s) ∧
  (Find V_default key s = Done (false, V_default) s ↔
   At key s = Throw out_of_range s) ∧
  (Find V_default key s = Undefined ↔ At key s = Undefined) ∧
  (∀ r s', Erase key s = Done r s' →
     ∃ v, Find V_default key s = Done (r, v) s) ∧
  (∀ value r s', Insert key value s = Done r s' →
     ∃ v, Find V_default key s = Done (negb r, v) s).
Proof.
  rewrite Find_located, At_located.
  split; [|split; [|split; [|split]]].
  - intros v. destruct (located s key) as [chain|]; [|done].
    destruct (first_value key chain); split; congruence.
  - destruct (located s key) as [chain|]; [|done].
    destruct (first_value key chain); split; congruence.
  - destruct (located s key) as [chain|]; [|done].
    destruct (first_value key chain); split; congruence.
  - intros r s'. unfold Erase. rewrite prefix_located. cbv beta zeta.
    destruct (located s key) as [chain|]; [|done].
    destruct (Nat.eqb_spec (first_index key chain) (length chain)) as [Heq|Hne].
    + intros [= <- <-]. apply first_index_absent, first_value_None in Heq.
      rewrite Heq. by exists V_default.
    + assert (has_key key chain = true) as [v ->]%first_value_has_key.
      { apply has_key_spec. destruct (decide (key ∈ chain.*1)) as [|Hn]; [done|].
        by apply first_index_absent in Hn. }
      unfold bind, set_bucket, modify, get, ret. intros [= <- _]. by exists v.
  - intros value r s'. unfold Insert. rewrite prefix_located. cbv beta.
    destruct (located s key) as [chain|]; [|done].
    destruct (has_key key chain) eqn:Hk.
    + apply first_value_has_key in Hk as [v ->]. intros [= <- <-]. by exists v.
    + assert (first_value key chain = None) as ->.
      { destruct (first_value key chain) as [v|] eqn:Hv; [|done].
        assert (has_key key chain = true) by (apply first_value_has_key; by exists v).
        congruence. }
      unfold bind, set_bucket, modify, get, ret. cbv beta iota.
      match goal with |- context [load_factor_exceeded ?a ?b ?c] =>
        destruct (load_factor_exceeded a b c) as [b0 s1| |]; [|done|done] end.
      destruct b0.
      * destruct (Rehash s1) as [u s2| |]; [|done|done].
        intros [= <- _]. by exists V_default.
      * intros [= <- _]. by exists V_default.
Qed.

(** ** Erase and the other keys *)

(** X9. [Erase(key)] on a well-formed object touches no other key: [Find] of
    any other key answers as before.  Afterwards [key] is absent, and a
    second [Erase(key)] returns [false] and changes nothing. *)
Theorem Erase_frame s key r s' :
  wf s → fits s → Erase key s = Done r s' →
  (∀ k x, k ≠ key →
     Find V_default k s = Done x s → Find V_default k s' = Done x s') ∧
  Find V_default key s' = Done (false, V_default) s' ∧
  Erase key s' = Done false s'.
Proof.
  intros Hwf Hf Hrun. destruct (present_dec s key) as [Hpr|Hnp].
  - destruct (Erase_present s key Hwf Hf Hpr) as (v & Hv & Heq & Hwf' & Hnp' & Hperm).
    rewrite Hrun in Heq. injection Heq as -> ->.
    split; [|split; [by apply Find_absent | by apply Erase_absent]].
    intros k x Hne Hfind. destruct (present_dec s k) as [Hk|Hnk].
    + apply present_stored in Hk as [w Hw].
      rewrite (Find_stored V_default s k w Hwf Hw) in Hfind. injection Hfind as <-.
      apply Find_stored; [done|]. unfold stored in *. rewrite Hperm in Hw.
      apply elem_of_cons in Hw as [[= ? ?]|Hw]; [by subst | done].
    + rewrite (Find_absent V_default s k Hwf Hnk) in Hfind. injection Hfind as <-.
      apply Find_absent; [done|]. intros Hk. apply Hnk. unfold present in *.
      rewrite Hperm. simpl. apply elem_of_cons. by right.
  - rewrite (Erase_absent s key Hwf Hnp) in Hrun. injection Hrun as <- <-.
    split; [done|]. split; [by apply Find_absent | by apply Erase_absent].
Qed.

(** ** Calls in sequence *)

Lemma Insert_absent_size s key value s' :
  wf s → wf s' → entries s' ≡ₚ entries s ++ [(key, value)] →
  size_ s' = size_ s + 1.
Proof.
  intros Hwf Hwf' Hperm. rewrite (wf_size s Hwf), (wf_size s' Hwf'), Hperm.
  rewrite length_app. simpl. lia.
Qed.

(** X10. [Insert] of an absent key followed by [Erase] of that key: both
    return [true], and the entries, [size_] and the answer of [Find] for every
    key are as before the two calls.  The bucket count can have grown. *)
Theorem Insert_Erase_round_trip s key value :
  wf s → fits s → ¬ present s key →
  ∃ s1 s2,
    Insert key value s = Done true s1 ∧ Erase key s1 = Done true s2 ∧
    entries s2 ≡ₚ entries s ∧ size_ s2 = size_ s ∧
    buckets_ s <= buckets_ s2 ∧
    ∀ k x, Find V_default k s = Done x s → Find V_default k s2 = Done x s2.
Proof.
  intros Hwf Hf Hnp. pose proof (wf_shape s Hwf) as [Hm Hb Hp].
  pose proof (wf_room s Hwf Hf) as [_ _ Hsz Hsum].
  destruct (Insert_absent_split s key value Hwf Hf Hnp)
    as (s1 & Hrun1 & Hwf1 & Hperm1 & Hcase).
  pose proof (Insert_absent_size s key value s1 Hwf Hwf1 Hperm1) as Hsz1.
  assert (present s1 key) as Hpr1.
  { unfold present. rewrite Hperm1, fmap_app. apply elem_of_app. right.
    by apply list_elem_of_singleton. }
  destruct (Erase_present_in_range s1 key Hwf1 ltac:(lia) Hpr1)
    as (v & Hv & Hrun2 & Hwf2 & _ & Hperm2).
  assert (v = value) as ->.
  { apply (stored_unique s1 key v value Hwf1 Hv). unfold stored. rewrite Hperm1.
    apply elem_of_app. right. by apply list_elem_of_singleton. }
  assert (entries (erased key s1) ≡ₚ entries s) as Hperm.
  { apply (Permutation_cons_inv (a := (key, value))).
    by rewrite <- Hperm2, Hperm1, Permutation_app_comm. }
  exists s1, (erased key s1). split; [done|]. split; [done|]. split; [done|].
  split; [|split].
  - change (size_ (erased key s1)) with (size_ s1 - 1). lia.
  - change (buckets_ (erased key s1)) with (buckets_ s1).
    destruct Hcase as [[_ ->]|[Hbr Hre]]; [simpl; lia|].
    pose proof (pushed_room s key value (wf_counted s Hwf) Hf Hp) as Hroom.
    destruct (Rehash_frame _ _ Hroom Hre) as (_ & _ & _ & Hle). simpl in Hle. lia.
  - intros k x. by apply Find_same_entries.
Qed.

(** X11. [Erase] of a present key followed by [Insert] of that key with a new
    value replaces the value: both calls return [true], [Find] then gives the
    new value, [size_] is as before the two calls, and every other key is
    stored as before. *)
Theorem Erase_Insert_replaces s key v value :
  wf s → fits s → stored s key v →
  ∃ s1 s2,
    Erase key s = Done true s1 ∧ Insert key value s1 = Done true s2 ∧
    Find V_default key s2 = Done (true, value) s2 ∧
    size_ s2 = size_ s ∧
    ∀ k x, k ≠ key → stored s2 k x ↔ stored s k x.
Proof.
  intros Hwf Hf Hv.
  assert (present s key) as Hpr by (apply present_stored; by exists v).
  destruct (Erase_present s key Hwf Hf Hpr) as (w & Hw & Hrun1 & Hwf1 & Hnp1 & Hperm1).
  pose proof (erased_fits s key Hf Hpr Hwf) as Hf1.
  destruct (Insert_absent_split (erased key s) key value Hwf1 Hf1 Hnp1)
    as (s2 & Hrun2 & Hwf2 & Hperm2 & _).
  exists (erased key s), s2. split; [done|]. split; [done|]. split; [|split].
  - apply Find_stored; [done|]. unfold stored. rewrite Hperm2.
    apply elem_of_app. right. by apply list_elem_of_singleton.
  - rewrite (Insert_absent_size _ key value s2 Hwf1 Hwf2 Hperm2).
    change (size_ (erased key s)) with (size_ s - 1). lia.
  - intros k x Hne. unfold stored. rewrite Hperm2, Hperm1.
    rewrite elem_of_app, list_elem_of_singleton, elem_of_cons.
    split; [intros [?|[= ? ?]]; [by right | by subst]
           | intros [[= ? ?]|?]; [by subst | by left]].
Qed.

Lemma Insert_absent_bound s key value s' :
  wf s → fits s → ¬ present s key → Insert key value s = Done true s' →
  mutex_size s' = mutex_size s ∧
  buckets_ s' <= bucket_bound s (size_ s + 1).
Proof.
  intros Hwf Hf Hnp Hrun. pose proof (wf_shape s Hwf) as [Hm Hb Hp].
  destruct (Insert_absent_split s key value Hwf Hf Hnp) as (s1 & Heq & _ & _ & Hcase).
  rewrite Hrun in Heq. injection Heq as <-. unfold bucket_bound.
  destruct Hcase as [[_ ->]|[Hbr Hre]]; [simpl; lia|].
  pose proof (pushed_room s key value (wf_counted s Hwf) Hf Hp) as Hroom.
  destruct (Rehash_grow_upper _ _ Hroom Hbr Hre) as [Hup Hms]. simpl in Hup, Hms. lia.
Qed.

Lemma insert_all_run s (kvs : list (K * V)) :
  wf s → NoDup kvs.*1 → (∀ k, k ∈ kvs.*1 → ¬ present s k) →
  size_ s + Z.of_nat (length kvs)
  + bucket_bound s (size_ s + Z.of_nat (length kvs)) + mutex_size s < 2 ^ 64 →
  ∃ s',
    insert_all kvs s = Done (replicate (length kvs) true) s' ∧
    wf s' ∧ entries s' ≡ₚ entries s ++ kvs ∧
    mutex_size s' = mutex_size s ∧
    buckets_ s' <= bucket_bound s (size_ s + Z.of_nat (length kvs)).
Proof.
  revert s. induction kvs as [|[k v] rest IH]; intros s Hwf Hnd Hnew Hbound.
  - exists s. split; [done|]. split; [done|]. split; [by rewrite app_nil_r|].
    split; [done|]. unfold bucket_bound. lia.
  - pose proof (wf_shape s Hwf) as [Hm Hb Hp].
    simpl in Hnd. apply list.NoDup_cons in Hnd as [Hk Hnd].
    assert (0 <= size_ s) as Hsz0 by (rewrite (wf_size s Hwf); lia).
    assert (fits s) as Hf.
    { unfold fits. rewrite <- (wf_size s Hwf), <- Hb.
      unfold bucket_bound in Hbound. simpl length in Hbound. lia. }
    assert (¬ present s k) as Hnp by (apply Hnew; simpl; apply elem_of_cons; by left).
    destruct (Insert_absent_split s k v Hwf Hf Hnp)
      as (s1 & Hrun1 & Hwf1 & Hperm1 & _).
    pose proof (Insert_absent_size s k v s1 Hwf Hwf1 Hperm1) as Hsz1.
    destruct (Insert_absent_bound s k v s1 Hwf Hf Hnp Hrun1) as [Hms1 Hbk1].
    destruct (IH s1 Hwf1 Hnd) as (s' & Hrun & Hwf' & Hperm & Hms & Hbk).
    + intros k' Hk' Hpr. unfold present in Hpr. rewrite Hperm1, fmap_app in Hpr.
      apply elem_of_app in Hpr as [Hpr|Heq%list_elem_of_singleton].
      * apply (Hnew k'); [simpl; apply elem_of_cons; by right | done].
      * simpl in Heq. by subst.
    + unfold bucket_bound in *. simpl length in Hbound. lia.
    + exists s'. simpl. unfold bind. rewrite Hrun1, Hrun.
      split; [done|]. split; [done|].
      split; [by rewrite Hperm, Hperm1, <- app_assoc|].
      split; [lia|]. unfold bucket_bound in *. simpl length. lia.
Qed.

(** X12. Distinct absent keys inserted one after the other into a
    well-formed object, with room for the table to grow: every [Insert]
    returns [true], [size_] goes up by the number of keys, [Find] returns for
    each key the value inserted with it, and every other key answers as
    before. *)
Theorem insert_all_distinct s (kvs : list (K * V)) :
  wf s → NoDup kvs.*1 → (∀ k, k ∈ kvs.*1 → ¬ present s k) →
  size_ s + Z.of_nat (length kvs)
  + bucket_bound s (size_ s + Z.of_nat (length kvs)) + mutex_size s < 2 ^ 64 →
  ∃ s',
    insert_all kvs s = Done (replicate (length kvs) true) s' ∧
    size_ s' = size_ s + Z.of_nat (length kvs) ∧
    Size s' = Done (size_ s + Z.of_nat (length kvs)) s' ∧
    (∀ k v, (k, v) ∈ kvs → Find V_default k s' = Done (true, v) s') ∧
    (∀ k x, k ∉ kvs.*1 →
       Find V_default k s = Done x s → Find V_default k s' = Done x s').
Proof.
  intros Hwf Hnd Hnew Hbound.
  destruct (insert_all_run s kvs Hwf Hnd Hnew Hbound)
    as (s' & Hrun & Hwf' & Hperm & _ & _).
  assert (size_ s' = size_ s + Z.of_nat (length kvs)) as Hsz.
  { rewrite (wf_size s Hwf), (wf_size s' Hwf'), Hperm, length_app. lia. }
  exists s'. split; [done|]. split; [done|].
  split; [unfold Size, get; by rewrite Hsz|]. split.
  - intros k v Hin. apply Find_stored; [done|]. unfold stored. rewrite Hperm.
    apply elem_of_app. by right.
  - intros k x Hk Hfind. destruct (present_dec s k) as [Hpr|Hnp].
    + apply present_stored in Hpr as [w Hw].
      rewrite (Find_stored V_default s k w Hwf Hw) in Hfind. injection Hfind as <-.
      apply Find_stored; [done|]. unfold stored. rewrite Hperm.
      apply elem_of_app. by left.
    + rewrite (Find_absent V_default s k Hwf Hnp) in Hfind. injection Hfind as <-.
      apply Find_absent; [done|]. unfold present. rewrite Hperm, fmap_app.
      intros [?|?]%elem_of_app; done.
Qed.

(** ** Every reachable object *)

(** X17. Whatever the constructor was given, an object that has a bucket
    keeps the class invariant through every sequence of completed calls: no
    key is stored twice, every entry lies in bucket [hash(key) % buckets_],
    and [Find] returns the value of every stored key and the empty result
    for every other key. *)
Theorem reachable_objects_well_formed s :
  reachable V_default s → buckets_ s ≠ 0 →
  NoDup (entries s).*1 ∧
  (∀ (i : nat) chain el,
     table_ s !! i = Some chain → el ∈ chain →
     to_uint64 (hasher_ s el.1) mod buckets_ s = Z.of_nat i) ∧
  (∀ key v, stored s key v → Find V_default key s = Done (true, v) s) ∧
  (∀ key, ¬ present s key → Find V_default key s = Done (false, V_default) s).
Proof.
  intros Hreach Hnz. destruct (reachable_wf V_default s Hreach Hnz) as [Hwf _].
  split; [apply Hwf|]. split; [apply Hwf|].
  split; [intros key v; by apply Find_stored | intros key; by apply Find_absent].
Qed.

(** X18. For an object constructed from the sentinel or a positive expected
    size, in every state reached by completed calls the bucket count is a
    positive multiple of the partition count, and for every key the mutex a
    single-key method locks, [hash % mutex_.size()], is the owner
    [idx % mutex_.size()] of the bucket [idx = hash % buckets_] it works on. *)
Theorem striping_after_sized_construction expected_size expected_threads_count
    hasher (s0 s : ConcurrentHashMap K V) key :
  sized_input expected_size → is_int expected_threads_count →
  ConcurrentHashMap_new expected_size expected_threads_count hasher = Some s0 →
  reachable_from V_default s0 s →
  0 < buckets_ s ∧ (mutex_size s | buckets_ s) ∧
  owner s (home s key) = to_uint64 (hasher_ s key) mod mutex_size s ∧
  lock_index (to_uint64 (hasher_ s key)) s
  = Done (owner s (home s key)) s ∧
  bucket_index (to_uint64 (hasher_ s key)) s = Done (home s key) s ∧
  is_Some (table_ s !! Z.to_nat (home s key)).
Proof.
  intros Hsz Hint Hnew Hreach.
  destruct (reachable_sized_shape V_default _ _ _ s0 s Hsz Hint Hnew Hreach)
    as (Hwf & Hstr & Hpos & _).
  pose proof (wf_shape s Hwf) as [Hm Hb Hp].
  assert (owner s (home s key) = to_uint64 (hasher_ s key) mod mutex_size s) as Hown
    by (unfold owner, home, bucket_for; by apply Z.mod_mod_divide).
  split; [done|]. split; [done|]. split; [done|].
  split; [rewrite Hown; by apply lock_index_Done|].
  split; [by apply bucket_index_Done|].
  destruct (home_bucket s key (wf_shape s Hwf)) as [chain Hch]. by exists chain.
Qed.

End More.

(** * The mutexes: what the methods lock *)

Section LockingFacts.

Context {K V : Type} `{EqDecision K}.
Variable V_default : V.

Implicit Types (s : ConcurrentHashMap K V) (t : @Locking.Threaded K V) (key : K).

(** ** No method changes the number of mutexes *)

Lemma keeps_ret {A} (a : A) : Locking.keeps_mutexes (ret (K := K) (V := V) a).
Proof. by intros s. Qed.

Lemma keeps_bind {A B} (m : @M K V A) (f : A → @M K V B) :
  Locking.keeps_mutexes m → (∀ a, Locking.keeps_mutexes (f a)) → Locking.keeps_mutexes (bind m f).
Proof.
  intros Hm Hf s. unfold bind. specialize (Hm s).
  destruct (m s) as [a s1|e s1|]; [|done|done].
  specialize (Hf a s1). destruct (f a s1); congruence.
Qed.

Lemma keeps_get {A} (field : ConcurrentHashMap K V → A) : Locking.keeps_mutexes (get field).
Proof. by intros s. Qed.

Lemma keeps_modify (f : ConcurrentHashMap K V → ConcurrentHashMap K V) :
  (∀ s, mutex_size (f s) = mutex_size s) → Locking.keeps_mutexes (modify f).
Proof. intros Hf s. apply Hf. Qed.

Lemma keeps_umod a b : Locking.keeps_mutexes (umod (K := K) (V := V) a b).
Proof. intros s. unfold umod. by destruct (b =? 0). Qed.

Lemma keeps_udiv a b : Locking.keeps_mutexes (udiv (K := K) (V := V) a b).
Proof. intros s. unfold udiv. by destruct (b =? 0). Qed.

Lemma keeps_bucket_at idx : Locking.keeps_mutexes (bucket_at (K := K) (V := V) idx).
Proof. intros s. unfold bucket_at. by destruct (table_ s !! Z.to_nat idx). Qed.

Lemma keeps_undefined {A} : Locking.keeps_mutexes (undefined (K := K) (V := V) (A := A)).
Proof. by intros s. Qed.

Lemma keeps_throw {A} e : Locking.keeps_mutexes (throw (K := K) (V := V) (A := A) e).
Proof. by intros s. Qed.

Ltac keeps_step :=
  first
    [ apply keeps_ret | apply keeps_get | apply keeps_umod | apply keeps_udiv
    | apply keeps_bucket_at | apply keeps_undefined | apply keeps_throw
    | apply keeps_modify; by intros []
    | apply keeps_bind; [|intros ?] ].

Lemma keeps_hash_of key : Locking.keeps_mutexes (hash_of (V := V) key).
Proof. unfold hash_of. repeat keeps_step. Qed.

Lemma keeps_lock_index hash : Locking.keeps_mutexes (lock_index (K := K) (V := V) hash).
Proof. unfold lock_index. repeat keeps_step. Qed.

Lemma keeps_bucket_index hash : Locking.keeps_mutexes (bucket_index (K := K) (V := V) hash).
Proof. unfold bucket_index. repeat keeps_step. Qed.

Lemma keeps_set_bucket idx (chain : list (K * V)) : Locking.keeps_mutexes (set_bucket idx chain).
Proof. unfold set_bucket. apply keeps_modify. by intros []. Qed.

Lemma keeps_load_factor_exceeded a b :
  Locking.keeps_mutexes (load_factor_exceeded (K := K) (V := V) a b).
Proof. unfold load_factor_exceeded. repeat keeps_step. Qed.

Lemma keeps_move_chain n (vec : list (K * V)) temp : Locking.keeps_mutexes (move_chain n vec temp).
Proof.
  revert temp. induction vec as [|el rest IH]; intros temp; simpl; [apply keeps_ret|].
  apply keeps_bind; [apply keeps_hash_of|]. intros hash.
  apply keeps_bind; [apply keeps_umod|]. intros idx.
  destruct (temp !! Z.to_nat idx); [apply IH | apply keeps_undefined].
Qed.

Lemma keeps_move_table n (tbl : list (list (K * V))) temp :
  Locking.keeps_mutexes (move_table n tbl temp).
Proof.
  revert temp. induction tbl as [|vec tbl IH]; intros temp; simpl; [apply keeps_ret|].
  apply keeps_bind; [apply keeps_move_chain | intros ?; apply IH].
Qed.

Lemma keeps_Rehash : Locking.keeps_mutexes (Rehash (K := K) (V := V)).
Proof.
  unfold Rehash.
  apply keeps_bind; [apply keeps_get|]. intros sz.
  apply keeps_bind; [apply keeps_get|]. intros b.
  apply keeps_bind; [apply keeps_load_factor_exceeded|]. intros [|]; [|apply keeps_ret].
  apply keeps_bind; [apply keeps_get|]. intros nm.
  apply keeps_bind; [apply keeps_umod|]. intros r.
  apply keeps_bind; [apply keeps_get|]. intros tbl.
  apply keeps_bind; [apply keeps_move_table|]. intros temp.
  apply keeps_bind; [apply keeps_modify; by intros [] | intros _].
  apply keeps_modify. by intros [].
Qed.

Lemma keeps_Clear : Locking.keeps_mutexes (Clear (K := K) (V := V)).
Proof.
  unfold Clear. apply keeps_bind; [apply keeps_get|]. intros tbl.
  apply keeps_bind; [apply keeps_modify; by intros [] | intros _].
  apply keeps_modify. by intros [].
Qed.

Lemma keeps_Insert_guarded key (value : V) hash :
  Locking.keeps_mutexes (Locking.Insert_guarded key value hash).
Proof.
  unfold Locking.Insert_guarded.
  apply keeps_bind; [apply keeps_bucket_index|]. intros idx.
  apply keeps_bind; [apply keeps_bucket_at|]. intros chain.
  destruct (has_key key chain); [apply keeps_ret|].
  apply keeps_bind; [apply keeps_set_bucket | intros _].
  apply keeps_bind; [apply keeps_get|]. intros sz.
  apply keeps_bind; [apply keeps_modify; by intros [] | intros _]. apply keeps_ret.
Qed.

Lemma keeps_Erase_guarded key hash : Locking.keeps_mutexes (Locking.Erase_guarded (V := V) key hash).
Proof.
  unfold Locking.Erase_guarded.
  apply keeps_bind; [apply keeps_bucket_index|]. intros idx.
  apply keeps_bind; [apply keeps_bucket_at|]. intros chain. cbv zeta.
  destruct (first_index key chain =? length chain)%nat; [apply keeps_ret|].
  apply keeps_bind; [apply keeps_set_bucket | intros _].
  apply keeps_bind; [apply keeps_get|]. intros sz.
  apply keeps_bind; [apply keeps_modify; by intros [] | intros _]. apply keeps_ret.
Qed.

Lemma keeps_Find_guarded key hash : Locking.keeps_mutexes (Locking.Find_guarded V_default key hash).
Proof.
  unfold Locking.Find_guarded.
  apply keeps_bind; [apply keeps_bucket_index|]. intros idx.
  apply keeps_bind; [apply keeps_bucket_at|]. intros chain.
  destruct (first_value key chain); apply keeps_ret.
Qed.

Lemma keeps_At_guarded key hash : Locking.keeps_mutexes (Locking.At_guarded (V := V) key hash).
Proof.
  unfold Locking.At_guarded.
  apply keeps_bind; [apply keeps_bucket_index|]. intros idx.
  apply keeps_bind; [apply keeps_bucket_at|]. intros chain.
  destruct (first_value key chain); [apply keeps_ret | apply keeps_throw].
Qed.

(** ** [Rehash] and [Clear] throw nothing *)

Lemma never_bind {A B} (m : @M K V A) (f : A → @M K V B) :
  Locking.never_throws m → (∀ a, Locking.never_throws (f a)) →
  Locking.never_throws (bind m f).
Proof.
  intros Hm Hf s. unfold bind. specialize (Hm s).
  destruct (m s) as [a s1|e s1|]; [|done|done]. apply Hf.
Qed.

Lemma never_plain {A} (m : @M K V A) :
  (∀ s, m s = Undefined ∨ ∃ a s', m s = Done a s') → Locking.never_throws m.
Proof. intros Hm s. by destruct (Hm s) as [->|(a & s' & ->)]. Qed.

Lemma never_get {A} (field : ConcurrentHashMap K V → A) :
  Locking.never_throws (get field).
Proof. apply never_plain. intros s. right. by eexists _, _. Qed.

Lemma never_modify (f : ConcurrentHashMap K V → ConcurrentHashMap K V) :
  Locking.never_throws (modify f).
Proof. apply never_plain. intros s. right. by eexists _, _. Qed.

Lemma never_ret {A} (a : A) : Locking.never_throws (ret (K := K) (V := V) a).
Proof. apply never_plain. intros s. right. by eexists _, _. Qed.

Lemma never_umod a b : Locking.never_throws (umod (K := K) (V := V) a b).
Proof. intros s. unfold umod. by destruct (b =? 0). Qed.

Lemma never_udiv a b : Locking.never_throws (udiv (K := K) (V := V) a b).
Proof. intros s. unfold udiv. by destruct (b =? 0). Qed.

Lemma never_move_chain n (vec : list (K * V)) temp :
  Locking.never_throws (move_chain n vec temp).
Proof.
  revert temp. induction vec as [|el rest IH]; intros temp; simpl; [apply never_ret|].
  apply never_bind.
  { unfold hash_of. apply never_bind; [apply never_get | intros ?; apply never_ret]. }
  intros hash. apply never_bind; [apply never_umod|]. intros idx.
  destruct (temp !! Z.to_nat idx); [apply IH | by intros s].
Qed.

Lemma never_move_table n (tbl : list (list (K * V))) temp :
  Locking.never_throws (move_table n tbl temp).
Proof.
  revert temp. induction tbl as [|vec tbl IH]; intros temp; simpl; [apply never_ret|].
  apply never_bind; [apply never_move_chain | intros ?; apply IH].
Qed.

Lemma never_Rehash : Locking.never_throws (Rehash (K := K) (V := V)).
Proof.
  unfold Rehash.
  apply never_bind; [apply never_get|]. intros sz.
  apply never_bind; [apply never_get|]. intros b.
  apply never_bind.
  { unfold load_factor_exceeded.
    apply never_bind; [apply never_udiv | intros ?; apply never_ret]. }
  intros [|]; [|apply never_ret].
  apply never_bind; [apply never_get|]. intros nm.
  apply never_bind; [apply never_umod|]. intros r.
  apply never_bind; [apply never_get|]. intros tbl.
  apply never_bind; [apply never_move_table|]. intros temp.
  apply never_bind; [apply never_modify | intros _; apply never_modify].
Qed.

Lemma never_Clear : Locking.never_throws (Clear (K := K) (V := V)).
Proof.
  unfold Clear. apply never_bind; [apply never_get|]. intros tbl.
  apply never_bind; [apply never_modify | intros _; apply never_modify].
Qed.

(** ** Locking and unlocking *)

Lemma idle_replicate t :
  Locking.idle t → Locking.mutex_ t = replicate (length (Locking.mutex_ t)) false.
Proof.
  intros [Hall _]. symmetry. apply replicate_as_Forall. split; [done|].
  eapply list.Forall_impl; [exact Hall|]. by intros b ->.
Qed.

Lemma idle_lookup t key :
  Locking.idle t → 0 < mutex_size (Locking.object t) →
  Locking.mutex_ t !! Z.to_nat (Locking.stripe (Locking.object t) key) = Some false.
Proof.
  intros Hidle Hm. rewrite (idle_replicate t Hidle). apply lookup_replicate_2.
  destruct Hidle as [_ Hlen]. unfold Locking.stripe.
  pose proof (Z.mod_pos_bound (to_uint64 (hasher_ (Locking.object t) key))
                (mutex_size (Locking.object t)) Hm). lia.
Qed.

(** A lock guard around a body that works on the object: the outcome of the
    body, the mutexes as before, and the lock and the unlock in the trace,
    also when the body throws. *)
Lemma lock_guard_lift {A} (m : @M K V A) t i :
  Locking.mutex_ t !! Z.to_nat i = Some false →
  Locking.lock_guard i (Locking.lift m) t
  = Locking.settle t (Locking.guard_trace i) (m (Locking.object t)).
Proof.
  intros Hi. pose proof (lookup_lt_Some _ _ _ Hi) as Hlt.
  unfold Locking.lock_guard, Locking.lock. rewrite Hi.
  unfold Locking.lift, Locking.settle, Locking.guard_trace. simpl.
  destruct (m (Locking.object t)) as [a s'|e s'|]; [| |done];
    unfold Locking.unlock; simpl;
    rewrite list_lookup_insert_eq by done;
    rewrite list_insert_insert_eq, (list_insert_id _ _ _ Hi), <- app_assoc; done.
Qed.

Lemma for_each_lock (k i : nat) (held : list bool) t :
  Locking.mutex_ t = held ++ replicate k false → length held = i →
  Locking.for_each Locking.lock (seq i k) t
  = Done tt {| Locking.object := Locking.object t;
               Locking.mutex_ := held ++ replicate k true;
               Locking.trace :=
                 Locking.trace t ++ ((λ j, Locking.Lock (Z.of_nat j)) <$> seq i k) |}.
Proof.
  revert i held t. induction k as [|k IH]; intros i held t Hm Hlen; simpl.
  - unfold Locking.ret_l. destruct t. simpl in *. by rewrite Hm, !app_nil_r.
  - unfold Locking.bind_l, Locking.lock. rewrite Nat2Z.id, Hm.
    rewrite lookup_app_r, Hlen, Nat.sub_diag by lia. simpl.
    rewrite (IH (S i) (held ++ [true])).
    + simpl. by rewrite <- !app_assoc.
    + simpl. rewrite <- Hlen.
      replace (length held) with (length held + 0)%nat by lia.
      rewrite insert_app_r. simpl. by rewrite <- app_assoc.
    + rewrite length_app. simpl. lia.
Qed.

Lemma for_each_unlock (k i : nat) (free : list bool) t :
  Locking.mutex_ t = free ++ replicate k true → length free = i →
  Locking.for_each Locking.unlock (seq i k) t
  = Done tt {| Locking.object := Locking.object t;
               Locking.mutex_ := free ++ replicate k false;
               Locking.trace :=
                 Locking.trace t ++ ((λ j, Locking.Unlock (Z.of_nat j)) <$> seq i k) |}.
Proof.
  revert i free t. induction k as [|k IH]; intros i free t Hm Hlen; simpl.
  - unfold Locking.ret_l. destruct t. simpl in *. by rewrite Hm, !app_nil_r.
  - unfold Locking.bind_l, Locking.unlock. rewrite Nat2Z.id, Hm.
    rewrite lookup_app_r, Hlen, Nat.sub_diag by lia. simpl.
    rewrite (IH (S i) (free ++ [false])).
    + simpl. by rewrite <- !app_assoc.
    + simpl. rewrite <- Hlen.
      replace (length free) with (length free + 0)%nat by lia.
      rewrite insert_app_r. simpl. by rewrite <- app_assoc.
    + rewrite length_app. simpl. lia.
Qed.

(** Every mutex locked, a body that throws nothing, every mutex unlocked. *)
Lemma barrier_lift (m : @M K V unit) t :
  Locking.idle t → Locking.never_throws m →
  Locking.bind_l (Locking.each_mutex Locking.lock) (λ _,
    Locking.bind_l (Locking.lift m) (λ _, Locking.each_mutex Locking.unlock)) t
  = Locking.settle t (Locking.barrier_trace (length (Locking.mutex_ t)))
      (m (Locking.object t)).
Proof.
  intros Hidle Hnever. pose proof (idle_replicate t Hidle) as Hrep.
  set (n := length (Locking.mutex_ t)) in *.
  unfold Locking.bind_l at 1, Locking.each_mutex at 1. fold n.
  rewrite (for_each_lock n 0 [] t) by done. simpl.
  unfold Locking.bind_l, Locking.lift. simpl.
  specialize (Hnever (Locking.object t)).
  destruct (m (Locking.object t)) as [[] s'|e s'|]; [|done|done].
  unfold Locking.each_mutex. simpl. rewrite length_replicate.
  rewrite (for_each_unlock n 0 []) by done. simpl.
  unfold Locking.barrier_trace. by rewrite <- Hrep, <- app_assoc.
Qed.

(** ** The single-key methods *)

Lemma guarded_split {A} (body : Z → @M K V A) s key :
  bind (hash_of key) (λ hash, bind (lock_index hash) (λ _, body hash)) s
  = match lock_index (to_uint64 (hasher_ s key)) s with
    | Done _ _ => body (to_uint64 (hasher_ s key)) s
    | Throw e s' => Throw e s'
    | Undefined => Undefined
    end.
Proof.
  unfold bind at 1, hash_of, bind at 1, get, ret. simpl. unfold bind.
  by destruct (lock_index_cases s (to_uint64 (hasher_ s key))) as [->|[m ->]].
Qed.

(** A method that hashes the key, takes the lock guard of its stripe and
    works on the object under it. *)
Lemma locking_single {A} (body : Z → @M K V A) t key :
  Locking.idle t →
  Locking.bind_l (Locking.lift (hash_of key)) (λ hash,
    Locking.bind_l (Locking.lift (lock_index hash)) (λ m_idx,
      Locking.lock_guard m_idx (Locking.lift (body hash)))) t
  = Locking.settle t (Locking.guard_trace (Locking.stripe (Locking.object t) key))
      (bind (hash_of key) (λ hash, bind (lock_index hash) (λ _, body hash))
         (Locking.object t)).
Proof.
  intros Hidle. rewrite guarded_split.
  pose proof (idle_lookup t key Hidle) as Hfree.
  destruct Hidle as [_ Hlen]. destruct t as [s mu tr]. simpl in *.
  unfold Locking.bind_l at 1, Locking.lift at 1, hash_of, bind, get, ret. simpl.
  unfold Locking.bind_l, Locking.lift at 1. simpl.
  unfold lock_index, bind, get, umod, Locking.stripe in *.
  destruct (Z.eqb_spec (mutex_size s) 0) as [|Hnz]; [done|]. unfold ret. simpl.
  rewrite lock_guard_lift; [done|]. apply Hfree. lia.
Qed.

(** X13. With the mutexes: on a thread that holds no mutex, [Find], [At] and
    [Erase] lock exactly one mutex, the one of index [hash % mutex_.size()],
    and unlock it before they return or throw; the mutexes are then as
    before, and the result and the object are those of the method without
    mutexes. *)
Theorem single_key_methods_lock_one_stripe t key :
  Locking.idle t →
  Locking.Find V_default key t
  = Locking.settle t (Locking.guard_trace (Locking.stripe (Locking.object t) key))
      (Find V_default key (Locking.object t)) ∧
  Locking.At key t
  = Locking.settle t (Locking.guard_trace (Locking.stripe (Locking.object t) key))
      (At key (Locking.object t)) ∧
  Locking.Erase key t
  = Locking.settle t (Locking.guard_trace (Locking.stripe (Locking.object t) key))
      (Erase key (Locking.object t)).
Proof.
  intros Hidle. split; [|split].
  - exact (locking_single (Locking.Find_guarded V_default key) t key Hidle).
  - exact (locking_single (Locking.At_guarded key) t key Hidle).
  - exact (locking_single (Locking.Erase_guarded key) t key Hidle).
Qed.

(** X14. With the mutexes: on a thread that holds no mutex, [Clear] and
    [Rehash] lock every mutex by ascending index, work on the object, and
    unlock every mutex by ascending index; the result and the object are
    those of the method without mutexes. *)
Theorem barrier_methods_lock_ascending t :
  Locking.idle t →
  Locking.Clear t
  = Locking.settle t (Locking.barrier_trace (length (Locking.mutex_ t)))
      (Clear (Locking.object t)) ∧
  Locking.Rehash t
  = Locking.settle t (Locking.barrier_trace (length (Locking.mutex_ t)))
      (Rehash (Locking.object t)).
Proof.
  intros Hidle. split.
  - exact (barrier_lift Clear t Hidle never_Clear).
  - exact (barrier_lift Rehash t Hidle never_Rehash).
Qed.

(** ** Insert *)

Lemma load_factor_exceeded_cases s :
  load_factor_exceeded (size_ s) (buckets_ s) s
  = if buckets_ s =? 0 then Undefined else Done (exceeded s) s.
Proof.
  unfold load_factor_exceeded, bind, udiv, exceeded.
  by destruct (buckets_ s =? 0).
Qed.

Lemma bucket_split {A} (k : Z → list (K * V) → @M K V A) hash s :
  bind (bucket_index hash) (λ idx, bind (bucket_at idx) (k idx)) s
  = if buckets_ s =? 0 then Undefined
    else match table_ s !! Z.to_nat (hash mod buckets_ s) with
         | Some chain => k (hash mod buckets_ s) chain s
         | None => Undefined
         end.
Proof.
  unfold bind at 1, bucket_index, bind at 1, get, umod.
  destruct (buckets_ s =? 0); [done|]. unfold ret, bind, bucket_at.
  by destruct (table_ s !! _).
Qed.

(** What [Insert] does after its block, on the state [s1] the block left. *)
Lemma Insert_split s key (value : V) :
  Insert key value s
  = match lock_index (to_uint64 (hasher_ s key)) s with
    | Done _ _ =>
        match Locking.Insert_guarded key value (to_uint64 (hasher_ s key)) s with
        | Done true s1 =>
            if buckets_ s1 =? 0 then Undefined
            else if exceeded s1 then
              match Rehash s1 with
              | Done _ s2 => Done true s2
              | Throw e s2 => Throw e s2
              | Undefined => Undefined
              end
            else Done true s1
        | Done false s1 => Done false s1
        | Throw e s1 => Throw e s1
        | Undefined => Undefined
        end
    | Throw e s' => Throw e s'
    | Undefined => Undefined
    end.
Proof.
  unfold Insert. rewrite guarded_split.
  destruct (lock_index_cases s (to_uint64 (hasher_ s key))) as [->|[m ->]]; [done|].
  unfold Locking.Insert_guarded. rewrite !bucket_split. cbv beta.
  destruct (Z.eqb_spec (buckets_ s) 0) as [|Hnz]; [done|].
  destruct (table_ s !! _) as [chain|]; [|done].
  destruct (has_key key chain); [done|].
  unfold bind, set_bucket, modify, get, ret. cbv beta iota.
  match goal with |- context [load_factor_exceeded ?a ?b ?c] =>
    change (load_factor_exceeded a b c)
      with (load_factor_exceeded (size_ c) (buckets_ c) c) end.
  rewrite load_factor_exceeded_cases. cbv beta iota.
  match goal with |- context [exceeded ?c] => set (s1 := c) end.
  destruct (buckets_ s1 =? 0); [done|]. destruct (exceeded s1); [|done].
  by destruct (Rehash s1).
Qed.

Lemma Insert_guarded_grows s key (value : V) m s' s1 :
  lock_index (to_uint64 (hasher_ s key)) s = Done m s' →
  Locking.Insert_guarded key value (to_uint64 (hasher_ s key)) s = Done true s1 →
  Locking.grows s key value = exceeded s1.
Proof. intros Hl Hg. unfold Locking.grows. by rewrite Hl, Hg. Qed.

Lemma locking_Insert t key (value : V) :
  Locking.idle t →
  Locking.Insert key value t
  = Locking.settle t
      (Locking.guard_trace (Locking.stripe (Locking.object t) key) ++
       (if Locking.grows (Locking.object t) key value
        then Locking.barrier_trace (length (Locking.mutex_ t)) else []))
      (Insert key value (Locking.object t)) ∧
  (∀ s', Insert key value (Locking.object t) = Done false s' →
         Locking.grows (Locking.object t) key value = false).
Proof.
  intros Hidle. split.
  - rewrite Insert_split.
    pose proof (idle_lookup t key Hidle) as Hfree.
    pose proof (keeps_Insert_guarded key value
                  (to_uint64 (hasher_ (Locking.object t) key)) (Locking.object t))
      as Hkeep.
    unfold Locking.grows.
    destruct Hidle as [Hall Hlen]. destruct t as [s mu tr]. simpl in *.
    unfold Locking.Insert.
    unfold Locking.bind_l at 1, Locking.lift at 1, hash_of, bind, get, ret. simpl.
    unfold Locking.bind_l at 1, Locking.lift at 1. simpl.
    unfold lock_index, bind, get, umod, Locking.stripe in *.
    destruct (Z.eqb_spec (mutex_size s) 0) as [|Hnz]; [done|]. unfold ret. simpl.
    unfold Locking.bind_l at 1. rewrite lock_guard_lift by (apply Hfree; lia).
    simpl.
    destruct (Locking.Insert_guarded key value (to_uint64 (hasher_ s key)) s)
      as [[|] s1|e s1|]; simpl; [| |done|done].
    + unfold Locking.bind_l at 1, Locking.lift at 1, get. simpl.
      unfold Locking.bind_l at 1, Locking.lift at 1. simpl.
      unfold Locking.bind_l at 1, Locking.lift at 1. simpl.
      rewrite (load_factor_exceeded_cases s1).
      destruct (buckets_ s1 =? 0); [done|]. simpl.
      destruct (exceeded s1).
      * match goal with |- Locking.bind_l _ _ ?t1 = _ =>
          assert (Locking.Rehash t1
                  = Locking.settle t1 (Locking.barrier_trace (length mu)) (Rehash s1))
            as Hbar
            by (apply (barrier_lift Rehash t1); [split; simpl; [done | lia]
                                                | apply never_Rehash])
        end.
        unfold Locking.bind_l. rewrite Hbar. unfold Locking.settle, Locking.ret_l.
        simpl. destruct (Rehash s1) as [[] s2|e s2|]; simpl;
          by rewrite <- ?app_assoc.
      * unfold Locking.bind_l, Locking.ret_l. by rewrite ?app_nil_r.
    + unfold Locking.ret_l. by rewrite ?app_nil_r.
  - intros s' Hrun. rewrite Insert_split in Hrun. unfold Locking.grows.
    destruct (lock_index _ _) as [m s0| |]; [|done|done].
    destruct (Locking.Insert_guarded _ _ _ _) as [[|] s1| |]; try done.
    destruct (buckets_ s1 =? 0); [done|]. destruct (exceeded s1); [|done].
    by destruct (Rehash s1).
Qed.

(** X15. With the mutexes: on a thread that holds no mutex, [Insert] locks
    the mutex of index [hash % mutex_.size()] and unlocks it when it leaves
    the block; only then, when the entry was pushed and the load factor is
    exceeded, it locks and unlocks every mutex by ascending index for
    [Rehash].  It never takes a mutex it holds; the mutexes are afterwards as
    before, and the result and the object are those of the method without
    mutexes.  A call that returns [false] takes the one mutex only. *)
Theorem Insert_unlocks_before_growth t key (value : V) :
  Locking.idle t →
  Locking.Insert key value t
  = Locking.settle t
      (Locking.guard_trace (Locking.stripe (Locking.object t) key) ++
       (if Locking.grows (Locking.object t) key value
        then Locking.barrier_trace (length (Locking.mutex_ t)) else []))
      (Insert key value (Locking.object t)) ∧
  (∀ s', Insert key value (Locking.object t) = Done false s' →
         Locking.grows (Locking.object t) key value = false).
Proof. apply locking_Insert. Qed.

(** ** Every call leaves the thread without mutex *)

Lemma keeps_guarded {A} (body : Z → @M K V A) key :
  (∀ hash, Locking.keeps_mutexes (body hash)) →
  Locking.keeps_mutexes
    (bind (hash_of key) (λ hash, bind (lock_index hash) (λ _, body hash))).
Proof.
  intros Hbody. apply keeps_bind; [apply keeps_hash_of|]. intros hash.
  apply keeps_bind; [apply keeps_lock_index | intros _; apply Hbody].
Qed.

Lemma keeps_Insert key (value : V) : Locking.keeps_mutexes (Insert key value).
Proof.
  intros s. rewrite Insert_split.
  destruct (lock_index_cases s (to_uint64 (hasher_ s key))) as [->|[m ->]]; [done|].
  pose proof (keeps_Insert_guarded key value (to_uint64 (hasher_ s key)) s) as Hg.
  destruct (Locking.Insert_guarded _ _ _ _) as [[|] s1|e s1|]; try done.
  destruct (buckets_ s1 =? 0); [done|]. destruct (exceeded s1); [|done].
  pose proof (keeps_Rehash s1) as Hr. destruct (Rehash s1); congruence.
Qed.

Lemma keeps_run (c : @call K V) : Locking.keeps_mutexes (run V_default c).
Proof.
  destruct c as [key value|key| |key|key| |]; simpl.
  - apply keeps_bind; [apply keeps_Insert | intros _; apply keeps_ret].
  - apply keeps_bind; [|intros _; apply keeps_ret].
    apply (keeps_guarded (Locking.Erase_guarded key)). intros ?. apply keeps_Erase_guarded.
  - apply keeps_Clear.
  - apply keeps_bind; [|intros _; apply keeps_ret].
    apply (keeps_guarded (Locking.Find_guarded V_default key)).
    intros ?. apply keeps_Find_guarded.
  - apply keeps_bind; [|intros _; apply keeps_ret].
    apply (keeps_guarded (Locking.At_guarded key)). intros ?. apply keeps_At_guarded.
  - apply keeps_bind; [apply keeps_get | intros _; apply keeps_ret].
  - apply keeps_Rehash.
Qed.

(** X16. With the mutexes: on a thread that holds no mutex, every call gives
    the result and the object of the call without mutexes, and leaves the
    thread without mutex again, whether it returns or throws.  So what is
    proved of sequences of calls without mutexes holds of the methods with
    their mutexes. *)
Theorem locking_calls_refine t (c : @call K V) :
  Locking.idle t →
  (∃ tr, Locking.run V_default c t
         = Locking.settle t tr (run V_default c (Locking.object t))) ∧
  (∀ t', Locking.run V_default c t = Done tt t' → Locking.idle t') ∧
  (∀ e t', Locking.run V_default c t = Throw e t' → Locking.idle t').
Proof.
  intros Hidle.
  assert (∃ tr, Locking.run V_default c t
                = Locking.settle t tr (run V_default c (Locking.object t)))
    as [tr Hrun].
  { destruct c as [key value|key| |key|key| |]; simpl.
    - eexists. unfold Locking.bind_l, bind.
      rewrite (proj1 (locking_Insert t key value Hidle)).
      by destruct (Insert key value (Locking.object t)).
    - eexists. unfold Locking.bind_l, bind.
      change (Locking.Erase key t) with
        (Locking.bind_l (Locking.lift (hash_of key)) (λ hash,
           Locking.bind_l (Locking.lift (lock_index hash)) (λ m_idx,
             Locking.lock_guard m_idx (Locking.lift (Locking.Erase_guarded key hash)))) t).
      rewrite (locking_single (Locking.Erase_guarded key) t key Hidle).
      change (bind (hash_of key) _ (Locking.object t)) with (Erase key (Locking.object t)).
      by destruct (Erase key (Locking.object t)).
    - eexists. exact (barrier_lift Clear t Hidle never_Clear).
    - eexists. unfold Locking.bind_l, bind.
      change (Locking.Find V_default key t) with
        (Locking.bind_l (Locking.lift (hash_of key)) (λ hash,
           Locking.bind_l (Locking.lift (lock_index hash)) (λ m_idx,
             Locking.lock_guard m_idx
               (Locking.lift (Locking.Find_guarded V_default key hash)))) t).
      rewrite (locking_single (Locking.Find_guarded V_default key) t key Hidle).
      change (bind (hash_of key) _ (Locking.object t))
        with (Find V_default key (Locking.object t)).
      by destruct (Find V_default key (Locking.object t)).
    - eexists. unfold Locking.bind_l, bind.
      change (Locking.At key t) with
        (Locking.bind_l (Locking.lift (hash_of key)) (λ hash,
           Locking.bind_l (Locking.lift (lock_index hash)) (λ m_idx,
             Locking.lock_guard m_idx (Locking.lift (Locking.At_guarded key hash)))) t).
      rewrite (locking_single (Locking.At_guarded key) t key Hidle).
      change (bind (hash_of key) _ (Locking.object t)) with (At key (Locking.object t)).
      by destruct (At key (Locking.object t)).
    - exists []. unfold Locking.bind_l, Locking.Size, Locking.lift, bind, Size, get,
        Locking.ret_l, Locking.settle, ret. simpl. by rewrite app_nil_r.
    - eexists. exact (barrier_lift Rehash t Hidle never_Rehash). }
  split; [by exists tr|].
  pose proof (keeps_run c (Locking.object t)) as Hkeep.
  rewrite Hrun. destruct Hidle as [Hall Hlen].
  destruct (run V_default c (Locking.object t)) as [[] s'|e s'|]; simpl.
  - split; [|done]. intros t' [= <-]. split; simpl; [done | lia].
  - split; [done|]. intros e' t' [= _ <-]. split; simpl; [done | lia].
  - done.
Qed.

End LockingFacts.

(** * The further properties on concrete objects *)

(** [ConcurrentHashMap(100)]: eight mutexes and forty buckets. *)
Lemma constructor_establishes_invariant_witness :
  sized_input 100 ∧ is_int 8 ∧
  ∃ s0 : ConcurrentHashMap Z Z,
    ConcurrentHashMap_sized 100 Sample.identity_hash = Some s0 ∧
    wf s0 ∧ mutex_size s0 = 8 ∧ buckets_ s0 = 40 ∧
    Find 0 7 s0 = Done (false, 0) s0.
Proof.
  assert (sized_input 100) as Hsz
    by (right; unfold INT_MAX, kLoadFactor; lia).
  assert (is_int 8) as Hint by (unfold is_int, INT_MIN, INT_MAX; lia).
  destruct (constructor_establishes_invariant 0 100 8 Sample.identity_hash Hsz Hint)
    as (s0 & Hnew & Hwf & _ & _ & _ & _ & Hm & _ & _ & Hfind).
  split; [exact Hsz|]. split; [exact Hint|]. exists s0.
  split; [exact Hnew|]. split; [exact Hwf|]. split; [exact Hm|].
  split; [|exact (Hfind 7)].
  vm_compute in Hnew. injection Hnew as <-. reflexivity.
Defined.

(** A thread count of three is raised to eight mutexes, which stay eight. *)
Lemma partition_count_fixed_witness :
  ConcurrentHashMap_new (-1) 3 Sample.identity_hash = Some Sample.fresh ∧
  fits Sample.fresh ∧ reachable_from 0 Sample.fresh Sample.one ∧
  mutex_size Sample.one = Z.max 8 3 ∧ buckets_ Sample.fresh <= buckets_ Sample.one.
Proof.
  assert (ConcurrentHashMap_new (-1) 3 Sample.identity_hash = Some Sample.fresh)
    as Hnew by (vm_compute; reflexivity).
  assert (fits Sample.fresh) as Hf by (unfold fits; simpl; lia).
  assert (reachable_from 0 Sample.fresh Sample.one) as Hreach.
  { apply (reachable_call 0 Sample.fresh Sample.fresh (CallInsert 3 30) Sample.one).
    - apply reachable_here.
    - vm_compute. reflexivity.
    - unfold fits. simpl. lia. }
  destruct (partition_count_fixed 0 (-1) 3 Sample.identity_hash
              Sample.fresh Sample.one Hnew Hf Hreach) as (Hm & _ & Hle & _).
  split; [exact Hnew|]. split; [exact Hf|]. split; [exact Hreach|].
  split; [exact Hm | exact Hle].
Defined.

(** The default constructor followed by [Insert(3, 30)]. *)
Lemma load_factor_bounded_witness :
  reachable 0 Sample.one ∧ size_ Sample.one <= kLoadFactor * buckets_ Sample.one.
Proof.
  assert (reachable 0 Sample.one) as Hreach.
  { exists (-1), 8, Sample.identity_hash, Sample.fresh.
    split; [unfold is_int, INT_MIN, INT_MAX; lia|].
    split; [unfold is_int, INT_MIN, INT_MAX; lia|].
    split; [vm_compute; reflexivity|].
    split; [unfold fits; simpl; lia|].
    apply (reachable_call 0 Sample.fresh Sample.fresh (CallInsert 3 30) Sample.one).
    - apply reachable_here.
    - vm_compute. reflexivity.
    - unfold fits. simpl. lia. }
  split; [exact Hreach | exact (load_factor_bounded 0 Sample.one Hreach)].
Defined.

(** [At] of an absent key throws and is not undefined. *)
Lemma no_undefined_behaviour_witness :
  wf Sample.three ∧ fits Sample.three ∧
  run 0 (CallAt 12) Sample.three ≠ Undefined.
Proof.
  assert (wf Sample.three) as Hwf by (apply wf_check_sound; vm_compute; reflexivity).
  assert (fits Sample.three) as Hf by (unfold fits; simpl; lia).
  split; [exact Hwf|]. split; [exact Hf|].
  exact (proj1 (no_undefined_behaviour 0 Sample.three (CallAt 12) Hwf Hf)).
Defined.

(** The object [ConcurrentHashMap(0)] returns. *)
Lemma no_bucket_no_access_witness :
  buckets_ SampleLocking.no_bucket = 0 ∧
  Insert 1 10 SampleLocking.no_bucket = Undefined ∧
  Find 0 1 SampleLocking.no_bucket = Undefined.
Proof.
  assert (buckets_ SampleLocking.no_bucket = 0) as Hb by reflexivity.
  destruct (no_bucket_no_access 0 SampleLocking.no_bucket 1 10 Hb)
    as (Hins & _ & Hfind & _).
  split; [exact Hb|]. split; [exact Hins | exact Hfind].
Defined.

(** The twenty-fifth entry of eight buckets makes thirty-two buckets; the
    fourth does not grow the table. *)
Lemma Insert_growth_threshold_witness :
  wf (Locking.object SampleLocking.full) ∧ fits (Locking.object SampleLocking.full) ∧
  ¬ present (Locking.object SampleLocking.full) 24 ∧
  ∃ s', Insert 24 240 (Locking.object SampleLocking.full) = Done true s' ∧
        smallest_multiple_geq 8 25 (buckets_ s') ∧ 8 < buckets_ s'.
Proof.
  assert (wf (Locking.object SampleLocking.full)) as Hwf
    by (apply wf_check_sound; vm_compute; reflexivity).
  assert (fits (Locking.object SampleLocking.full)) as Hf
    by (unfold fits; simpl; lia).
  assert (¬ present (Locking.object SampleLocking.full) 24) as Hnp by by_computation.
  destruct (Insert_growth_threshold (Locking.object SampleLocking.full) 24 240 Hwf Hf Hnp)
    as (s' & Hrun & _ & Hgrow).
  destruct (Hgrow ltac:(unfold kLoadFactor; simpl; lia)) as [Hsm Hlt].
  split; [exact Hwf|]. split; [exact Hf|]. split; [exact Hnp|].
  exists s'. split; [exact Hrun|]. split; [exact Hsm | exact Hlt].
Defined.

(** [Rehash] of twenty-five entries in eight buckets. *)
Lemma Rehash_growth_effect_witness :
  room Sample.loaded ∧ breach Sample.loaded ∧
  ∃ s', Rehash Sample.loaded = Done tt s' ∧
        25 <= buckets_ s' < 33 ∧ Rehash s' = Done tt s'.
Proof.
  assert (room Sample.loaded) as Hr by (split; simpl; lia).
  assert (breach Sample.loaded) as Hb by reflexivity.
  destruct (Rehash_growth_effect Sample.loaded Hr Hb) as (s' & Hrun & Hrange & _ & Hidem).
  split; [exact Hr|]. split; [exact Hb|].
  exists s'. split; [exact Hrun|]. split; [exact Hrange | exact Hidem].
Defined.

(** [Erase(3)] leaves key 11, which shares the bucket, as it was. *)
Lemma Erase_frame_witness :
  wf Sample.three ∧ fits Sample.three ∧
  Erase 3 Sample.three = Done true (erased 3 Sample.three) ∧
  Find 0 11 (erased 3 Sample.three) = Done (true, 110) (erased 3 Sample.three) ∧
  Erase 3 (erased 3 Sample.three) = Done false (erased 3 Sample.three).
Proof.
  assert (wf Sample.three) as Hwf by (apply wf_check_sound; vm_compute; reflexivity).
  assert (fits Sample.three) as Hf by (unfold fits; simpl; lia).
  assert (Erase 3 Sample.three = Done true (erased 3 Sample.three)) as Hrun
    by (vm_compute; reflexivity).
  assert (Find 0 11 Sample.three = Done (true, 110) Sample.three) as Hfind
    by (vm_compute; reflexivity).
  destruct (Erase_frame 0 Sample.three 3 true (erased 3 Sample.three) Hwf Hf Hrun)
    as (Hother & _ & Hagain).
  split; [exact Hwf|]. split; [exact Hf|]. split; [exact Hrun|].
  split; [|exact Hagain].
  exact (Hother 11 (true, 110) ltac:(discriminate) Hfind).
Defined.

(** [Insert(19, 190)] then [Erase(19)]. *)
Lemma Insert_Erase_round_trip_witness :
  wf Sample.three ∧ fits Sample.three ∧ ¬ present Sample.three 19 ∧
  ∃ s1 s2, Insert 19 190 Sample.three = Done true s1 ∧
           Erase 19 s1 = Done true s2 ∧ size_ s2 = 3 ∧
           entries s2 ≡ₚ entries Sample.three.
Proof.
  assert (wf Sample.three) as Hwf by (apply wf_check_sound; vm_compute; reflexivity).
  assert (fits Sample.three) as Hf by (unfold fits; simpl; lia).
  assert (¬ present Sample.three 19) as Hnp by by_computation.
  destruct (Insert_Erase_round_trip 0 Sample.three 19 190 Hwf Hf Hnp)
    as (s1 & s2 & Hrun1 & Hrun2 & Hperm & Hsz & _).
  split; [exact Hwf|]. split; [exact Hf|]. split; [exact Hnp|].
  exists s1, s2. split; [exact Hrun1|]. split; [exact Hrun2|].
  split; [exact Hsz | exact Hperm].
Defined.

(** [Erase(3)] then [Insert(3, 99)]. *)
Lemma Erase_Insert_replaces_witness :
  wf Sample.three ∧ fits Sample.three ∧ stored Sample.three 3 30 ∧
  ∃ s1 s2, Erase 3 Sample.three = Done true s1 ∧
           Insert 3 99 s1 = Done true s2 ∧
           Find 0 3 s2 = Done (true, 99) s2 ∧ size_ s2 = 3.
Proof.
  assert (wf Sample.three) as Hwf by (apply wf_check_sound; vm_compute; reflexivity).
  assert (fits Sample.three) as Hf by (unfold fits; simpl; lia).
  assert (stored Sample.three 3 30) as Hst by by_computation.
  destruct (Erase_Insert_replaces 0 Sample.three 3 30 99 Hwf Hf Hst)
    as (s1 & s2 & Hrun1 & Hrun2 & Hfind & Hsz & _).
  split; [exact Hwf|]. split; [exact Hf|]. split; [exact Hst|].
  exists s1, s2. split; [exact Hrun1|]. split; [exact Hrun2|].
  split; [exact Hfind | exact Hsz].
Defined.

(** Three keys, two of them in one bucket, inserted into a fresh map. *)
Lemma insert_all_distinct_witness :
  wf Sample.fresh ∧ NoDup ([(1, 10); (9, 90); (2, 20)] : list (Z * Z)).*1 ∧
  ∃ s', insert_all [(1, 10); (9, 90); (2, 20)] Sample.fresh
        = Done [true; true; true] s' ∧
        Size s' = Done 3 s' ∧ Find 0 9 s' = Done (true, 90) s'.
Proof.
  assert (wf Sample.fresh) as Hwf by (apply wf_check_sound; vm_compute; reflexivity).
  assert (NoDup ([(1, 10); (9, 90); (2, 20)] : list (Z * Z)).*1) as Hnd
    by (apply (bool_decide_unpack _); vm_compute; exact I).
  assert (∀ k, k ∈ ([(1, 10); (9, 90); (2, 20)] : list (Z * Z)).*1 →
               ¬ present Sample.fresh k) as Hnew.
  { intros k _ Hpr. unfold present, entries in Hpr. simpl in Hpr.
    by apply elem_of_nil in Hpr. }
  destruct (insert_all_distinct 0 Sample.fresh [(1, 10); (9, 90); (2, 20)] Hwf Hnd Hnew)
    as (s' & Hrun & _ & Hsize & Hfind & _).
  { unfold bucket_bound. simpl. lia. }
  split; [exact Hwf|]. split; [exact Hnd|].
  exists s'. split; [exact Hrun|]. split; [exact Hsize|].
  apply Hfind. apply elem_of_cons. right. apply elem_of_cons. by left.
Defined.

(** [Find(3)], [At(12)] and [Erase(3)] take mutex 3, 4 and 3. *)
Lemma single_key_methods_lock_one_stripe_witness :
  Locking.idle SampleLocking.three ∧
  Locking.Find 0 3 SampleLocking.three
  = Locking.settle SampleLocking.three [Locking.Lock 3; Locking.Unlock 3]
      (Find 0 3 Sample.three) ∧
  Locking.At 12 SampleLocking.three
  = Locking.settle SampleLocking.three [Locking.Lock 4; Locking.Unlock 4]
      (At 12 Sample.three).
Proof.
  assert (Locking.idle SampleLocking.three) as Hidle
    by (split; [repeat constructor | reflexivity]).
  split; [exact Hidle|]. split.
  - exact (proj1 (single_key_methods_lock_one_stripe 0 SampleLocking.three 3 Hidle)).
  - exact (proj1 (proj2 (single_key_methods_lock_one_stripe 0 SampleLocking.three 12 Hidle))).
Defined.

(** [Clear] with eight mutexes. *)
Lemma barrier_methods_lock_ascending_witness :
  Locking.idle SampleLocking.three ∧
  Locking.Clear SampleLocking.three
  = Locking.settle SampleLocking.three (Locking.barrier_trace 8) (Clear Sample.three).
Proof.
  assert (Locking.idle SampleLocking.three) as Hidle
    by (split; [repeat constructor | reflexivity]).
  split; [exact Hidle|].
  exact (proj1 (barrier_methods_lock_ascending SampleLocking.three Hidle)).
Defined.

(** The twenty-fifth entry: mutex 0, then all eight for [Rehash]. *)
Lemma Insert_unlocks_before_growth_witness :
  Locking.idle SampleLocking.full ∧
  Locking.grows (Locking.object SampleLocking.full) 24 240 = true ∧
  Locking.Insert 24 240 SampleLocking.full
  = Locking.settle SampleLocking.full
      (Locking.guard_trace 0 ++
       (if Locking.grows (Locking.object SampleLocking.full) 24 240
        then Locking.barrier_trace 8 else []))
      (Insert 24 240 (Locking.object SampleLocking.full)).
Proof.
  assert (Locking.idle SampleLocking.full) as Hidle
    by (split; [repeat constructor | reflexivity]).
  split; [exact Hidle|]. split; [vm_compute; reflexivity|].
  exact (proj1 (Insert_unlocks_before_growth SampleLocking.full 24 240 Hidle)).
Defined.

(** [At] of an absent key throws and leaves no mutex held. *)
Lemma locking_calls_refine_witness :
  Locking.idle SampleLocking.three ∧
  ∀ e t', Locking.run 0 (CallAt 12) SampleLocking.three = Throw e t' →
          Locking.idle t'.
Proof.
  assert (Locking.idle SampleLocking.three) as Hidle
    by (split; [repeat constructor | reflexivity]).
  split; [exact Hidle|].
  exact (proj2 (proj2 (locking_calls_refine 0 SampleLocking.three (CallAt 12) Hidle))).
Defined.

(** The default constructor followed by [Insert(3, 30)]. *)
Lemma reachable_objects_well_formed_witness :
  reachable 0 Sample.one ∧ buckets_ Sample.one ≠ 0 ∧
  Find 0 3 Sample.one = Done (true, 30) Sample.one.
Proof.
  assert (reachable 0 Sample.one) as Hreach.
  { exists (-1), 8, Sample.identity_hash, Sample.fresh.
    split; [unfold is_int, INT_MIN, INT_MAX; lia|].
    split; [unfold is_int, INT_MIN, INT_MAX; lia|].
    split; [vm_compute; reflexivity|].
    split; [unfold fits; simpl; lia|].
    apply (reachable_call 0 Sample.fresh Sample.fresh (CallInsert 3 30) Sample.one).
    - apply reachable_here.
    - vm_compute. reflexivity.
    - unfold fits. simpl. lia. }
  assert (buckets_ Sample.one ≠ 0) as Hnz by (simpl; lia).
  assert (stored Sample.one 3 30) as Hst by by_computation.
  destruct (reachable_objects_well_formed 0 Sample.one Hreach Hnz) as (_ & _ & Hfind & _).
  split; [exact Hreach|]. split; [exact Hnz | exact (Hfind 3 30 Hst)].
Defined.

(** The default constructor followed by [Insert(3, 30)]; the key 11. *)
Lemma striping_after_sized_construction_witness :
  sized_input (-1) ∧ is_int 8 ∧
  ConcurrentHashMap_new (-1) 8 Sample.identity_hash = Some Sample.fresh ∧
  reachable_from 0 Sample.fresh Sample.one ∧
  lock_index 11 Sample.one = Done 3 Sample.one ∧
  bucket_index 11 Sample.one = Done 3 Sample.one.
Proof.
  assert (sized_input (-1)) as Hsz by (by left).
  assert (is_int 8) as Hint by (unfold is_int, INT_MIN, INT_MAX; lia).
  assert (ConcurrentHashMap_new (-1) 8 Sample.identity_hash = Some Sample.fresh)
    as Hnew by (vm_compute; reflexivity).
  assert (reachable_from 0 Sample.fresh Sample.one) as Hreach.
  { apply (reachable_call 0 Sample.fresh Sample.fresh (CallInsert 3 30) Sample.one).
    - apply reachable_here.
    - vm_compute. reflexivity.
    - unfold fits. simpl. lia. }
  destruct (striping_after_sized_construction 0 (-1) 8 Sample.identity_hash
              Sample.fresh Sample.one 11 Hsz Hint Hnew Hreach)
    as (_ & _ & _ & Hlock & Hbucket & _).
  split; [exact Hsz|]. split; [exact Hint|]. split; [exact Hnew|].
  split; [exact Hreach|]. split; [exact Hlock | exact Hbucket].
Defined.
